(** * DataJoint: table tiers and the entity-relationship diagram

    A shallow embedding of [datajoint/user_relations.py] and
    [datajoint/erd.py].  Python values are modelled as follows:

    - [str] is [string]; the methods the code calls on it ([split],
      [strip], [startswith], [replace], slicing) are written out in
      module [Str];
    - a raised exception is the [Raise] branch of [result]; code that can
      raise is written in the error monad;
    - [set] is [gset string], a graph of [networkx] is a record of a node
      set and an edge set;
    - [re] patterns stay strings, as in the source, and are read by a
      small parser for the fragment of the syntax the source uses. *)

From Stdlib Require Import ZArith QArith Lqa Ascii String.
From stdpp Require Import gmap strings list sets.

Local Open Scope stdpp_scope.

(** ** Exceptions and the error monad *)

Inductive exn :=
| DataJointError (msg : string)
| AttributeError
| TypeError
| IndexError
| KeyError
| ValueError
| ZeroDivisionError
| NetworkXUnfeasible
| ReError.

Inductive result (A : Type) :=
| Ok (a : A)
| Raise (e : exn).
Arguments Ok {A} a.
Arguments Raise {A} e.

Global Instance result_fmap : FMap result := λ A B f m,
  match m with
  | Ok a => Ok (f a)
  | Raise e => Raise e
  end.

Global Instance result_ret : MRet result := λ A a, Ok a.
Global Instance result_bind : MBind result := λ A B k m,
  match m with
  | Ok a => k a
  | Raise e => Raise e
  end.

(** ** The [str] methods used by the source *)

Module Str.

(** [s.split(sep)] for a one-character separator: never the empty list. *)
Fixpoint split (sep : ascii) (s : string) : list string :=
  match s with
  | EmptyString => [EmptyString]
  | String c s' =>
      if decide (c = sep) then EmptyString :: split sep s'
      else match split sep s' with
           | h :: t => String c h :: t
           | [] => [String c EmptyString]
           end
  end.

Fixpoint lstrip (c : ascii) (s : string) : string :=
  match s with
  | String a s' => if decide (a = c) then lstrip c s' else s
  | EmptyString => EmptyString
  end.

Fixpoint rstrip (c : ascii) (s : string) : string :=
  match s with
  | String a s' =>
      match rstrip c s' with
      | EmptyString => if decide (a = c) then EmptyString else String a EmptyString
      | r => String a r
      end
  | EmptyString => EmptyString
  end.

(** [s.strip(c)] *)
Definition strip (c : ascii) (s : string) : string := rstrip c (lstrip c s).

(** [s[:k]] *)
Fixpoint slice_to (k : nat) (s : string) : string :=
  match k, s with
  | S k', String a s' => String a (slice_to k' s')
  | _, _ => EmptyString
  end.

(** [s.startswith(p)] *)
Fixpoint startswith (p s : string) : bool :=
  match p, s with
  | EmptyString, _ => true
  | String a p', String b s' => bool_decide (a = b) && startswith p' s'
  | String _ _, EmptyString => false
  end.

(** [s.replace(old, new)] for a non-empty [old]: the occurrences are
    replaced from the left, without overlap.  [skip] counts the
    characters of an occurrence still to be dropped. *)
Fixpoint replace_go (old new : string) (skip : nat) (s : string) : string :=
  match s with
  | EmptyString => EmptyString
  | String a s' =>
      match skip with
      | S k => replace_go old new k s'
      | O =>
          if startswith old s
          then new +:+ replace_go old new (String.length old - 1) s'
          else String a (replace_go old new 0 s')
      end
  end.

Definition replace (old new s : string) : string := replace_go old new 0 s.

(** [c in s] for a character [c] *)
Fixpoint contains (c : ascii) (s : string) : bool :=
  match s with
  | EmptyString => false
  | String a s' => bool_decide (a = c) || contains c s'
  end.

(** [sep.join(l)] *)
Fixpoint join (sep : string) (l : list string) : string :=
  match l with
  | [] => EmptyString
  | [x] => x
  | x :: l' => x +:+ sep +:+ join sep l'
  end.

(** [l[i]] and [l[-2]] on a list: out of range raises [IndexError]. *)
Definition index {A} (l : list A) (i : nat) : result A :=
  match l !! i with
  | Some x => Ok x
  | None => Raise IndexError
  end.

Definition index_neg2 {A} (l : list A) : result A :=
  match rev l with
  | _ :: x :: _ => Ok x
  | _ => Raise IndexError
  end.

End Str.

(** ** [datajoint/utils.py] *)

Module Utils.

(** Modelled from the spec: the letter tests and the loop that
    [from_camel_case] below is made of; [datajoint/utils.py] is not among
    the sources. *)
Definition is_upper (c : ascii) : bool :=
  (65 <=? nat_of_ascii c)%nat && (nat_of_ascii c <=? 90)%nat.

Definition lower (c : ascii) : ascii :=
  if is_upper c then ascii_of_nat (nat_of_ascii c + 32) else c.

Fixpoint from_camel_case_go (inside : bool) (s : string) : string :=
  match s with
  | EmptyString => EmptyString
  | String c s' =>
      if is_upper c && inside
      then String "_" (String (lower c) (from_camel_case_go true s'))
      else String (lower c) (from_camel_case_go true s')
  end.

(** Modelled from the spec: [from_camel_case] lives in [datajoint/utils.py],
    which is not among the sources.  The spec describes it as the
    conversion of a capitalized-word identifier into a lowercase,
    underscore-delimited one: every capital letter is lowered, and one
    that does not open the name is preceded by an underscore. *)
Definition from_camel_case (s : string) : string := from_camel_case_go false s.

End Utils.

(** ** [datajoint/user_relations.py]: the table tiers *)

Module UserRelations.

(** The five tier classes a user relation derives from. *)
Inductive tier := Manual | Lookup | Imported | Computed | Part.

Global Instance tier_eq_dec : EqDecision tier.
Proof. solve_decision. Defined.

(** *** [OrderedClass]

    The metaclass sees a class statement as follows: the interpreter calls
    [__prepare__] for the namespace, runs the class body in it, and hands
    the namespace to [__new__].  Running the body stores, in this order
    (CPython 3.6 to 3.12): [__module__] and [__qualname__];
    [__annotations__] when a statement of the body carries an annotation;
    [__doc__] when the body opens with a docstring; each member as its
    statement is reached; and, after the last statement, [__classcell__]
    when code nested in the body names [super] or [__class__].  Earlier
    interpreters have no annotated statements and no [__classcell__]. *)

Section OrderedClass.

(** The objects a class body binds. *)
Variable V : Type.

(** [collections.OrderedDict]: the items in insertion order; storing
    under a key it already holds keeps the key's place. *)
Definition OrderedDict := list (string * V).

Fixpoint setitem (k : string) (v : V) (d : OrderedDict) : OrderedDict :=
  match d with
  | [] => [(k, v)]
  | (k', v') :: d' =>
      if decide (k' = k) then (k, v) :: d' else (k', v') :: setitem k v d'
  end.

Definition __prepare__ : OrderedDict := [].

(** The class object, with the two attributes [__new__] gives it. *)
Record class_object := ClassObject {
  __dict__ : gmap string V;
  _ordered_class_members : list string
}.

(** [type.__new__(cls, name, bases, dict(namespace))], then
    [result._ordered_class_members = tuple(namespace)]. *)
Definition __new__ (namespace : OrderedDict) : class_object :=
  {| __dict__ := list_to_map namespace;
     _ordered_class_members := namespace.*1 |}.

(** A class statement: what the interpreter binds by itself, and the
    members, the names that the statements of the body bind, in the
    order of the source text.  [annotations] is the dictionary of the
    annotations when a statement of the body is annotated, [classcell]
    the cell of [__class__] when code nested in the body names [super]
    or [__class__]. *)
Record class_body := ClassBody {
  module_name : V;
  qualname : V;
  annotations : option V;
  docstring : option V;
  members : list (string * V);
  classcell : option V
}.

(** Storing an entry that the body may or may not have. *)
Definition store (k : string) (v : option V) (ns : OrderedDict) : OrderedDict :=
  match v with
  | Some v => setitem k v ns
  | None => ns
  end.

Definition exec_body (b : class_body) (ns : OrderedDict) : OrderedDict :=
  let ns := setitem "__module__" (module_name b) ns in
  let ns := setitem "__qualname__" (qualname b) ns in
  let ns := store "__annotations__" (annotations b) ns in
  let ns := store "__doc__" (docstring b) ns in
  let ns := foldl (λ ns kv, setitem kv.1 kv.2 ns) ns (members b) in
  store "__classcell__" (classcell b) ns.

Definition class_statement (b : class_body) : class_object :=
  __new__ (exec_body b __prepare__).

(** What the namespace holds when the first member is reached. *)
Definition preamble (b : class_body) : OrderedDict :=
  store "__doc__" (docstring b)
    (store "__annotations__" (annotations b)
       (setitem "__qualname__" (qualname b)
          (setitem "__module__" (module_name b) __prepare__))).

(** The class body with one more assignment [k = v] at its end: a
    statement without annotation, whose value is built without naming
    [super] or [__class__], so that the body is annotated, and has its
    cell, exactly when it was and had before. *)
Definition declare_again (b : class_body) (k : string) (v : V) : class_body :=
  {| module_name := module_name b; qualname := qualname b;
     annotations := annotations b; docstring := docstring b;
     members := members b ++ [(k, v)]; classcell := classcell b |}.

(** The name of an entry that the body may or may not have. *)
Definition stored (k : string) (v : option V) : list string :=
  match v with
  | Some _ => [k]
  | None => []
  end.

(** The names the interpreter stores before the first member, and after
    the last. *)
Definition implicit_names (b : class_body) : list string :=
  ["__module__"; "__qualname__"] ++
  stored "__annotations__" (annotations b) ++ stored "__doc__" (docstring b).

Definition closing_names (b : class_body) : list string :=
  stored "__classcell__" (classcell b).

(** The names of the entries that are the interpreter's to store. *)
Definition interpreter_names : list string :=
  ["__module__"; "__qualname__"; "__annotations__"; "__doc__"; "__classcell__"].

End OrderedClass.

Arguments setitem {V} k v d.
Arguments __prepare__ {V}.
Arguments __dict__ {V} c.
Arguments _ordered_class_members {V} c.
Arguments __new__ {V} namespace.
Arguments module_name {V} c.
Arguments qualname {V} c.
Arguments annotations {V} c.
Arguments docstring {V} c.
Arguments members {V} c.
Arguments classcell {V} c.
Arguments store {V} k v ns.
Arguments stored {V} k v.
Arguments exec_body {V} b ns.
Arguments class_statement {V} b.
Arguments preamble {V} b.
Arguments implicit_names {V} b.
Arguments closing_names {V} b.
Arguments declare_again {V} b k v.

(** *** The tier classes *)

(** A user class: the tier it is declared under and the class attributes
    the accessors read.  [database] and [_master] are set from outside,
    by the schema decorator; [None] is Python's [None]. *)
#[warnings="-register-all"]
Inductive cls := Class {
  cls_tier : tier;
  __name__ : string;
  database : option string;
  _master : option cls
}.

(** [_base_regexp] *)
Definition _base_regexp : string := "[a-z]+[a-z0-9]*(_[a-z]+[a-z0-9]*)*".

(** The [_prefix] each tier class sets in its body. *)
Definition Manual_prefix : string := EmptyString.
Definition Lookup_prefix : string := "#".
Definition Imported_prefix : string := "_".
Definition Computed_prefix : string := "__".

(** [_prefix]: [None] on [UserRelation], inherited as such by [Part]. *)
Definition _prefix (t : tier) : option string :=
  match t with
  | Manual => Some Manual_prefix
  | Lookup => Some Lookup_prefix
  | Imported => Some Imported_prefix
  | Computed => Some Computed_prefix
  | Part => None
  end.

(** The [tier_regexp] each tier class sets in its body, built by string
    concatenation as there. *)
Definition Manual_tier_regexp : string :=
  "(?P<manual>" +:+ Manual_prefix +:+ _base_regexp +:+ ")".
Definition Lookup_tier_regexp : string :=
  "(?P<lookup>" +:+ Lookup_prefix +:+
  Str.replace "TIER" "lookup" _base_regexp +:+ ")".
Definition Imported_tier_regexp : string :=
  "(?P<imported>" +:+ Imported_prefix +:+ _base_regexp +:+ ")".
Definition Computed_tier_regexp : string :=
  "(?P<computed>" +:+ Computed_prefix +:+ _base_regexp +:+ ")".
Definition Part_tier_regexp : string :=
  "(?P<master>" +:+
  Str.join "|"
    [Manual_tier_regexp; Lookup_tier_regexp;
     Imported_tier_regexp; Computed_tier_regexp] +:+
  "){1,1}" +:+ "__" +:+ "(?P<part>" +:+ _base_regexp +:+ ")".

Definition tier_regexp (t : tier) : string :=
  match t with
  | Manual => Manual_tier_regexp
  | Lookup => Lookup_tier_regexp
  | Imported => Imported_tier_regexp
  | Computed => Computed_tier_regexp
  | Part => Part_tier_regexp
  end.

Section Naming.

(** [from_camel_case] is imported from [datajoint/utils.py]. *)
Variable from_camel_case : string → string.

(** [UserRelation.table_name], overridden by [Part.table_name].
    [None + str] and [str + None] raise [TypeError]. *)
Fixpoint table_name (c : cls) : result (option string) :=
  match cls_tier c with
  | Part =>
      match _master c with
      | None => Ok None
      | Some master =>
          match table_name master with
          | Ok (Some t) => Ok (Some (t +:+ "__" +:+ from_camel_case (__name__ c)))
          | Ok None => Raise TypeError
          | Raise e => Raise e
          end
      end
  | t =>
      match _prefix t with
      | Some p => Ok (Some (p +:+ from_camel_case (__name__ c)))
      | None => Raise TypeError
      end
  end.

(** [r"`{0:s}`.`{1:s}`".format(database, table_name)]; the [s]
    conversion applied to [None] raises [TypeError]. *)
Definition format_full (db : string) (tn : option string) : result string :=
  match tn with
  | Some t => Ok ("`" +:+ db +:+ "`.`" +:+ t +:+ "`")
  | None => Raise TypeError
  end.

(** [UserRelation.full_table_name] and [Part.full_table_name]. *)
Definition full_table_name (c : cls) : result (option string) :=
  match cls_tier c with
  | Part =>
      match database c with
      | None => Ok None
      | Some db =>
          tn ← table_name c;
          match tn with
          | None => Ok None
          | Some _ => tn' ← table_name c; s ← format_full db tn'; Ok (Some s)
          end
      end
  | _ =>
      match database c with
      | None =>
          Raise (DataJointError
            ("Class " +:+ __name__ c +:+
             " is not properly declared (schema decorator not applied?)"))
      | Some db => tn ← table_name c; s ← format_full db tn; Ok (Some s)
      end
  end.

End Naming.

End UserRelations.

(** ** The fragment of Python's [re] the tier patterns are written in

    Literal characters, character classes [[a-z0-9]], groups [( )] and
    named groups [(?P<name> )], alternation [|], and the repetitions [*],
    [+] and [{m,n}].  [fullmatch] backtracks over all the ways to match, so
    it succeeds exactly when the whole string is in the pattern's
    language. *)

Module Re.

Inductive regex :=
| Void
| Eps
| Chr (c : ascii)
| Class (ranges : list (ascii * ascii))
| Cat (r1 r2 : regex)
| Alt (r1 r2 : regex)
| Star (r : regex).

Definition in_range (c : ascii) (lh : ascii * ascii) : bool :=
  (nat_of_ascii lh.1 <=? nat_of_ascii c)%nat &&
  (nat_of_ascii c <=? nat_of_ascii lh.2)%nat.

Definition in_class (c : ascii) (ranges : list (ascii * ascii)) : bool :=
  existsb (in_range c) ranges.

(** *** The strings a pattern matches in full *)

Inductive lang : regex → string → Prop :=
| lang_eps : lang Eps EmptyString
| lang_chr c : lang (Chr c) (String c EmptyString)
| lang_class c ranges :
    in_class c ranges = true → lang (Class ranges) (String c EmptyString)
| lang_cat r1 r2 s1 s2 :
    lang r1 s1 → lang r2 s2 → lang (Cat r1 r2) (s1 +:+ s2)
| lang_alt_l r1 r2 s : lang r1 s → lang (Alt r1 r2) s
| lang_alt_r r1 r2 s : lang r2 s → lang (Alt r1 r2) s
| lang_star_nil r : lang (Star r) EmptyString
| lang_star_cons r s1 s2 :
    lang r s1 → lang (Star r) s2 → lang (Star r) (s1 +:+ s2).

(** *** Matching, by derivatives *)

Fixpoint nullable (r : regex) : bool :=
  match r with
  | Void | Chr _ | Class _ => false
  | Eps | Star _ => true
  | Cat r1 r2 => nullable r1 && nullable r2
  | Alt r1 r2 => nullable r1 || nullable r2
  end.

Fixpoint deriv (a : ascii) (r : regex) : regex :=
  match r with
  | Void | Eps => Void
  | Chr c => if decide (a = c) then Eps else Void
  | Class rs => if in_class a rs then Eps else Void
  | Cat r1 r2 =>
      if nullable r1 then Alt (Cat (deriv a r1) r2) (deriv a r2)
      else Cat (deriv a r1) r2
  | Alt r1 r2 => Alt (deriv a r1) (deriv a r2)
  | Star r1 => Cat (deriv a r1) (Star r1)
  end.

Fixpoint matches (r : regex) (s : string) : bool :=
  match s with
  | EmptyString => nullable r
  | String a s' => matches (deriv a r) s'
  end.

(** *** Reading a pattern *)

(** [r{m,n}]: [m] copies of [r], then up to [n - m] optional ones. *)
Fixpoint copies (k : nat) (r : regex) : regex :=
  match k with
  | O => Eps
  | S k' => Cat r (copies k' r)
  end.

Fixpoint optional_copies (k : nat) (r : regex) : regex :=
  match k with
  | O => Eps
  | S k' => Alt Eps (Cat r (optional_copies k' r))
  end.

Definition repeat_range (m n : nat) (r : regex) : regex :=
  Cat (copies m r) (optional_copies (n - m) r).

(** A group being read: the alternatives that are complete and the atoms
    of the current one, both latest first. *)
Record frame := Frame { alts : list regex; atoms : list regex }.

Definition empty_frame : frame := Frame [] [].

Definition branch (atoms : list regex) : regex :=
  foldl (λ acc r, Cat r acc) Eps atoms.

Definition close_frame (f : frame) : regex :=
  foldl (λ acc r, Alt r acc) (branch (atoms f)) (alts f).

(** Where the reader is: between atoms, in the header of a named group,
    inside a character class, or inside the braces of a repetition. *)
Inductive mode :=
| Normal
| Opened
| Question
| QuestionP
| GroupName
| InClass (done : list (ascii * ascii)) (last : option ascii) (dash : bool)
| BoundLow (lo : nat)
| BoundHigh (lo hi : nat).

Record pstate := PState { pmode : mode; cur : frame; stack : list frame }.

Definition push_atom (r : regex) (st : pstate) : pstate :=
  PState Normal (Frame (alts (cur st)) (r :: atoms (cur st))) (stack st).

(** A postfix operator applies to the atom before it. *)
Definition on_last_atom (f : regex → regex) (st : pstate) : option pstate :=
  match atoms (cur st) with
  | r :: rest => Some (PState Normal (Frame (alts (cur st)) (f r :: rest)) (stack st))
  | [] => None
  end.

Definition digit (c : ascii) : option nat :=
  if (48 <=? nat_of_ascii c)%nat && (nat_of_ascii c <=? 57)%nat
  then Some (nat_of_ascii c - 48) else None.

Definition normal_step (st : pstate) (c : ascii) : option pstate :=
  if decide (c = "("%char) then
    Some (PState Opened empty_frame (cur st :: stack st))
  else if decide (c = ")"%char) then
    match stack st with
    | parent :: rest =>
        Some (PState Normal
                (Frame (alts parent) (close_frame (cur st) :: atoms parent)) rest)
    | [] => None
    end
  else if decide (c = "|"%char) then
    Some (PState Normal
            (Frame (branch (atoms (cur st)) :: alts (cur st)) []) (stack st))
  else if decide (c = "*"%char) then on_last_atom Star st
  else if decide (c = "+"%char) then on_last_atom (λ r, Cat r (Star r)) st
  else if decide (c = "["%char) then
    Some (PState (InClass [] None false) (cur st) (stack st))
  else if decide (c = "{"%char) then
    Some (PState (BoundLow 0) (cur st) (stack st))
  else if bool_decide (c ∈ ["."; "^"; "$"; "?"; "\"; "]"; "}"]%char) then None
  else Some (push_atom (Chr c) st).

Definition with_mode (m : mode) (st : pstate) : pstate :=
  PState m (cur st) (stack st).

Definition step (st : pstate) (c : ascii) : option pstate :=
  match pmode st with
  | Normal => normal_step st c
  | Opened =>
      if decide (c = "?"%char) then Some (with_mode Question st)
      else normal_step (with_mode Normal st) c
  | Question =>
      if decide (c = "P"%char) then Some (with_mode QuestionP st) else None
  | QuestionP =>
      if decide (c = "<"%char) then Some (with_mode GroupName st) else None
  | GroupName =>
      if decide (c = ">"%char) then Some (with_mode Normal st) else Some st
  | InClass done last dash =>
      if decide (c = "]"%char) then
        match last, dash with
        | Some a, false => Some (push_atom (Class ((a, a) :: done)) st)
        | None, false => Some (push_atom (Class done) st)
        | _, true => None
        end
      else if decide (c = "-"%char) then
        match last, dash with
        | Some a, false => Some (with_mode (InClass done last true) st)
        | _, _ => None
        end
      else
        match last, dash with
        | Some a, true => Some (with_mode (InClass ((a, c) :: done) None false) st)
        | Some a, false => Some (with_mode (InClass ((a, a) :: done) (Some c) false) st)
        | None, _ => Some (with_mode (InClass done (Some c) false) st)
        end
  | BoundLow lo =>
      if decide (c = ","%char) then Some (with_mode (BoundHigh lo 0) st)
      else match digit c with
           | Some d => Some (with_mode (BoundLow (10 * lo + d)) st)
           | None => None
           end
  | BoundHigh lo hi =>
      if decide (c = "}"%char) then on_last_atom (repeat_range lo hi) st
      else match digit c with
           | Some d => Some (with_mode (BoundHigh lo (10 * hi + d)) st)
           | None => None
           end
  end.

Fixpoint read (st : pstate) (p : string) : option regex :=
  match p with
  | EmptyString =>
      match pmode st, stack st with
      | Normal, [] => Some (close_frame (cur st))
      | _, _ => None
      end
  | String c p' =>
      match step st c with
      | Some st' => read st' p'
      | None => None
      end
  end.

(** [re.compile(pattern)]; a pattern outside the fragment is refused. *)
Definition compile (pattern : string) : option regex :=
  read (PState Normal empty_frame []) pattern.

(** [re.fullmatch(pattern, string)], as a truth value. *)
Definition fullmatch (pattern s : string) : result bool :=
  match compile pattern with
  | Some r => Ok (matches r s)
  | None => Raise ReError
  end.

End Re.

(** ** The tier patterns, as the reader leaves them *)

Module Names.

Import Re UserRelations.

(** [[a-z]] and [[a-z0-9]] *)
Definition lower_case : regex := Re.Class [("a", "z")%char].
Definition lower_or_digit : regex :=
  Re.Class [("0", "9")%char; ("a", "z")%char].

(** [[a-z]+[a-z0-9]*], followed by [k] *)
Definition word (k : regex) : regex :=
  Cat (Cat lower_case (Star lower_case)) (Cat (Star lower_or_digit) k).

(** [_base_regexp] *)
Definition base_re : regex :=
  word (Cat (Star (Cat (Chr "_") (word Eps))) Eps).

(** The characters of [pre], then [r]. *)
Fixpoint prefixed (pre : string) (r : regex) : regex :=
  match pre with
  | EmptyString => r
  | String c pre' => Cat (Chr c) (prefixed pre' r)
  end.

(** A group that holds a prefix and the base pattern. *)
Definition top_re (pre : string) : regex := Cat (prefixed pre base_re) Eps.

Definition masters_re : regex :=
  Alt (top_re Manual_prefix)
      (Alt (top_re Lookup_prefix)
           (Alt (top_re Imported_prefix) (top_re Computed_prefix))).

Definition part_re : regex :=
  Cat (Cat (Cat masters_re Eps) Eps) (prefixed "__" (Cat base_re Eps)).

Definition tier_re (t : tier) : regex :=
  match t with
  | Manual => top_re Manual_prefix
  | Lookup => top_re Lookup_prefix
  | Imported => top_re Imported_prefix
  | Computed => top_re Computed_prefix
  | Part => part_re
  end.

(** A one-pass reading of a base name: a lower-case letter opens the name
    and follows every underscore; letters and digits go on. *)
Definition is_lower (c : ascii) : bool :=
  (97 <=? nat_of_ascii c)%nat && (nat_of_ascii c <=? 122)%nat.

Definition is_digit (c : ascii) : bool :=
  (48 <=? nat_of_ascii c)%nat && (nat_of_ascii c <=? 57)%nat.

Fixpoint scan (opening : bool) (s : string) : bool :=
  match s with
  | EmptyString => negb opening
  | String c s' =>
      if opening then is_lower c && scan false s'
      else if decide (c = "_"%char) then scan true s'
      else (is_lower c || is_digit c) && scan false s'
  end.

(** The top-level tier that the first characters of a segment leave
    possible. *)
Definition tier_of_head (s : string) : tier :=
  match s with
  | String c s' =>
      if decide (c = "#"%char) then Lookup
      else if decide (c = "_"%char) then
        match s' with
        | String c' _ => if decide (c' = "_"%char) then Computed else Imported
        | EmptyString => Imported
        end
      else Manual
  | EmptyString => Manual
  end.

(** What a segment of each tier looks like. *)
Definition top_shape (pre s : string) : Prop :=
  ∃ b, s = pre +:+ b ∧ scan true b = true.

Definition tier_shape (t : tier) (s : string) : Prop :=
  match t with
  | Manual => top_shape Manual_prefix s
  | Lookup => top_shape Lookup_prefix s
  | Imported => top_shape Imported_prefix s
  | Computed => top_shape Computed_prefix s
  | Part =>
      ∃ m b, s = m +:+ "__" +:+ b ∧ scan true b = true ∧
             (top_shape Manual_prefix m ∨ top_shape Lookup_prefix m ∨
              top_shape Imported_prefix m ∨ top_shape Computed_prefix m)
  end.

(** A class whose converted name follows [_base_regexp]; a Part class is
    moreover bound to a master of a top-level tier with such a name. *)
Definition well_named (from_camel_case : string → string) (c : cls) : Prop :=
  fullmatch _base_regexp (from_camel_case (__name__ c)) = Ok true ∧
  (cls_tier c = Part →
   ∃ m, _master c = Some m ∧ cls_tier m ≠ Part ∧
        fullmatch _base_regexp (from_camel_case (__name__ m)) = Ok true).

End Names.

(** ** [networkx]: what the diagram uses of [DiGraph] *)

Module Nx.

(** A directed graph: its nodes and its edges.  Adding an edge to a graph
    of [networkx] adds both its ends, which [wf] records. *)
Record DiGraph := Graph {
  nodes : gset string;
  edges : gset (string * string)
}.

Definition wf (G : DiGraph) : Prop :=
  set_Forall (λ e, e.1 ∈ nodes G ∧ e.2 ∈ nodes G) (edges G).

Global Instance wf_dec G : Decision (wf G).
Proof. unfold wf. apply _. Defined.

(** [G[v]]: the successors of [v]. *)
Definition successors (G : DiGraph) (v : string) : gset string :=
  set_map snd (filter (λ e, e.1 = v) (edges G)).

(** [G.reverse()] *)
Definition reverse (G : DiGraph) : DiGraph :=
  {| nodes := nodes G; edges := set_map (λ e, (e.2, e.1)) (edges G) |}.

(** [G.subgraph(nbunch)]: the nodes of [nbunch] that are in [G], and the
    edges of [G] between them. *)
Definition subgraph (G : DiGraph) (nbunch : gset string) : DiGraph :=
  {| nodes := filter (λ n, n ∈ nodes G) nbunch;
     edges := filter (λ e, e.1 ∈ nbunch ∧ e.2 ∈ nbunch) (edges G) |}.

(** [nx.algorithms.boundary.node_boundary(G, nbunch1)]:
    [nset1 = {n for n in nbunch1 if n in G}], then the union of [G[v]]
    over [nset1], less [nset1]. *)
Definition node_boundary (G : DiGraph) (nbunch1 : gset string) : gset string :=
  let nset1 := filter (λ n, n ∈ nodes G) nbunch1 in
  set_bind (successors G) nset1 ∖ nset1.

(** [within G start k v]: a path of at most [k] edges of [G] leads from a
    node of [start] to [v]. *)
Inductive within (G : DiGraph) (start : gset string) : nat → string → Prop :=
| within_start k v : v ∈ start → within G start k v
| within_edge k u v :
    within G start k u → (u, v) ∈ edges G → within G start (S k) v.

End Nx.

(** ** [datajoint/erd.py] *)

Module Erd.

Import UserRelations.
Export Nx.

Definition user_relation_classes : list tier :=
  [Manual; Lookup; Computed; Imported; Part].

(** [next(tier for tier in classes if re.fullmatch(...))]; running out of
    classes is the [StopIteration] that [_get_tier] turns into [None]. *)
Fixpoint next_tier (classes : list tier) (table_name : string)
  : result (option tier) :=
  match classes with
  | [] => Ok None
  | tier :: rest =>
      segment ← Str.index_neg2 (Str.split "`" table_name);
      m ← Re.fullmatch (tier_regexp tier) segment;
      if m : bool then Ok (Some tier) else next_tier rest table_name
  end.

Definition _get_tier (table_name : string) : result (option tier) :=
  next_tier user_relation_classes table_name.

(** Whether [re.fullmatch(tier.tier_regexp, segment)] is a match. *)
Definition fully_matches (segment : string) (tier : tier) : bool :=
  match Re.fullmatch (tier_regexp tier) segment with
  | Ok true => true
  | _ => false
  end.

(** A fully-qualified identifier: the two names between backticks. *)
Definition qualified (db table : string) : string :=
  "`" +:+ db +:+ "`.`" +:+ table +:+ "`".

(** *** The diagram *)

Record ERD := MkERD {
  graph : DiGraph;
  nodes_to_show : gset string
}.

(** An attribute that an object may lack: reading [Absent] raises
    [AttributeError]. *)
Inductive attr (A : Type) :=
| Absent
| Value (a : A).
Arguments Absent {A}.
Arguments Value {A} a.

(** [connection.dependencies], after [load()]. *)
Record Connection := MkConnection { dependencies : DiGraph }.

Record Schema := MkSchema {
  schema_connection : attr (option Connection);
  schema_database : attr string
}.

(** A source that is not a diagram, by what [__init__] asks of it:
    its attributes, [repr(source)], and [repr(source[0])] or what
    [source[0]] raises.  [full_table_name] is a property that may raise.
    A source whose [full_table_name] is [None] is not represented. *)
Record Object := MkObject {
  connection : attr (option Connection);
  schema : attr Schema;
  full_table_name : attr (result string);
  database : attr string;
  repr : string;
  repr_item0 : result string
}.

Inductive source :=
| FromERD (e : ERD)
| FromObject (o : Object).

(** The [try] blocks that find the connection. *)
Definition find_connection (o : Object) : result (option Connection) :=
  match connection o with
  | Value c => Ok c
  | Absent =>
      match schema o with
      | Value (MkSchema (Value c) _) => Ok c
      | _ =>
          r ← repr_item0 o;
          Raise (DataJointError ("Could not find database connection in " +:+ r))
      end
  end.

(** The [try] blocks that find the database. *)
Definition find_database (o : Object) : result string :=
  match database o with
  | Value db => Ok db
  | Absent =>
      match schema o with
      | Value (MkSchema _ (Value db)) => Ok db
      | _ => Raise (DataJointError ("Cannot plot ERD for " +:+ repr o))
      end
  end.

Definition __init__ (src : source) : result ERD :=
  match src with
  | FromERD e => Ok {| graph := graph e; nodes_to_show := nodes_to_show e |}
  | FromObject o =>
      c ← find_connection o;
      match c with
      | None => Raise AttributeError
      | Some conn =>
          let G := dependencies conn in
          match full_table_name o with
          | Value (Ok n) => Ok {| graph := G; nodes_to_show := {[ n ]} |}
          | Absent | Value (Raise AttributeError) =>
              db ← find_database o;
              Ok {| graph := G;
                    nodes_to_show :=
                      filter (λ node, Str.startswith ("`" +:+ db +:+ "`") node)
                             (nodes G) |}
          | Value (Raise err) => Raise err
          end
      end
  end.

(** *** [add_parts] *)

Definition is_part (part master : string) : result bool :=
  let part := Str.strip "`" <$> Str.split "." part in
  let master := Str.strip "`" <$> Str.split "." master in
  m0 ← Str.index master 0;
  p0 ← Str.index part 0;
  if bool_decide (m0 = p0) then
    m1 ← Str.index master 1;
    p1 ← Str.index part 1;
    Ok (bool_decide (m1 +:+ "__" = Str.slice_to (String.length m1 + 2) p1))
  else Ok false.

(** The two pieces that [is_part] cuts out of an identifier: what is
    before its first dot and what is between its first dot and its
    second, without the backticks at their ends. *)
Definition db_segment (node : string) : string :=
  Str.strip "`" (default EmptyString (Str.split "." node !! 0)).

Definition table_segment (node : string) : string :=
  Str.strip "`" (default EmptyString (Str.split "." node !! 1)).

(** The comparison that [is_part] makes on these pieces. *)
Definition part_of (part master : string) : Prop :=
  db_segment part = db_segment master ∧
  ∃ rest, table_segment part = table_segment master +:+ "__" +:+ rest.

(** A name that can stand between two backticks. *)
Definition unquoted (name : string) : Prop := Str.contains "`" name = false.

(** Part-of, in the words of the documentation, on the two names of each
    identifier: [part] is [`db`.`table`] and [master] is [`db`.`mtable`],
    of one database, and [table] is [mtable], then [__], then the rest. *)
Definition part_of_master (part master : string) : Prop :=
  ∃ db table mtable rest,
    part = qualified db table ∧ master = qualified db mtable ∧
    unquoted db ∧ unquoted table ∧ unquoted mtable ∧
    table = mtable +:+ "__" +:+ rest.

(** An identifier whose two names hold no dot and no backtick. *)
Definition plain_identifier (node : string) : Prop :=
  ∃ db table,
    node = qualified db table ∧
    Str.contains "." db = false ∧ unquoted db ∧
    Str.contains "." table = false ∧ unquoted table.

(** [any(is_part(n, m) for m in shown)] *)
Fixpoint any_is_part (n : string) (shown : list string) : result bool :=
  match shown with
  | [] => Ok false
  | m :: rest =>
      b ← is_part n m;
      if b : bool then Ok true else any_is_part n rest
  end.

(** [nodes_to_show.update(n for n in self.nodes() if any(...))]: the
    generator is consumed one node at a time, and each node it yields is
    in [nodes_to_show] when the next one is tested. *)
Fixpoint update_with_parts (pending : list string) (shown : gset string)
  : result (gset string) :=
  match pending with
  | [] => Ok shown
  | n :: rest =>
      b ← any_is_part n (elements shown);
      update_with_parts rest (if b : bool then {[ n ]} ∪ shown else shown)
  end.

Definition add_parts (self : ERD) : result ERD :=
  shown ← update_with_parts (elements (nodes (graph self))) (nodes_to_show self);
  Ok {| graph := graph self; nodes_to_show := shown |}.

(** What the documentation has [add_parts] show: [e1] shows what [e]
    shows, and every node of the graph that is part of a node shown in
    [e]. *)
Definition shows_parts (e e1 : ERD) : Prop :=
  ∀ n, n ∈ nodes_to_show e1 ↔
       n ∈ nodes_to_show e ∨
       (n ∈ nodes (graph e) ∧ ∃ m, m ∈ nodes_to_show e ∧ part_of_master n m).

(** *** The operators *)

(** The right operand of [+] and [-]: a diagram, an object with a
    [full_table_name] (a property that may raise; [AttributeError] sends
    the object, which is no integer, to [range]), or an integer. *)
Inductive operand :=
| OpERD (e : ERD)
| OpRelation (full_table_name : result string)
| OpInt (n : Z).

Definition operand_name (name : result string) : result string :=
  match name with
  | Raise AttributeError => Raise TypeError
  | _ => name
  end.

(** [for i in range(arg)], with the [break]. *)
Fixpoint expand (G : DiGraph) (hops : nat) (shown : gset string) : gset string :=
  match hops with
  | O => shown
  | S hops' =>
      let new := node_boundary G shown in
      if decide (new = ∅) then shown else expand G hops' (shown ∪ new)
  end.

(** The stepping rule in the words of the documentation: the boundary of
    the shown set is what one edge reaches from it and is not shown yet,
    downstream along the edges and upstream against them; a hop adds the
    boundary; [n] hops are asked for, [k] of them are made, each of them
    finds something new, and fewer than [n] are made only when the next
    one would find nothing. *)
Definition downstream_boundary (G : DiGraph) (shown : gset string) : gset string :=
  filter (λ v, v ∉ shown) (set_map snd (filter (λ e, e.1 ∈ shown) (edges G))).

Definition upstream_boundary (G : DiGraph) (shown : gset string) : gset string :=
  filter (λ u, u ∉ shown) (set_map fst (filter (λ e, e.2 ∈ shown) (edges G))).

Definition hop (boundary : gset string → gset string) (shown : gset string)
  : gset string :=
  shown ∪ boundary shown.

Definition expands_by_hops (boundary : gset string → gset string) (n : Z)
    (start final : gset string) : Prop :=
  ∃ k : nat,
    k ≤ Z.to_nat n ∧
    final = Nat.iter k (hop boundary) start ∧
    (∀ i, i < k → boundary (Nat.iter i (hop boundary) start) ≠ ∅) ∧
    (k < Z.to_nat n → boundary final = ∅).

Definition __add__ (self : ERD) (arg : operand) : result ERD :=
  match arg with
  | OpERD e =>
      Ok {| graph := graph self;
            nodes_to_show := nodes_to_show self ∪ nodes_to_show e |}
  | OpRelation name =>
      n ← operand_name name;
      Ok {| graph := graph self; nodes_to_show := nodes_to_show self ∪ {[ n ]} |}
  | OpInt n =>
      Ok {| graph := graph self;
            nodes_to_show := expand (graph self) (Z.to_nat n) (nodes_to_show self) |}
  end.

Definition __sub__ (self : ERD) (arg : operand) : result ERD :=
  match arg with
  | OpERD e =>
      Ok {| graph := graph self;
            nodes_to_show := nodes_to_show self ∖ nodes_to_show e |}
  | OpRelation name =>
      n ← operand_name name;
      if decide (n ∈ nodes_to_show self)
      then Ok {| graph := graph self; nodes_to_show := nodes_to_show self ∖ {[ n ]} |}
      else Raise KeyError
  | OpInt n =>
      Ok {| graph := graph self;
            nodes_to_show :=
              expand (reverse (graph self)) (Z.to_nat n) (nodes_to_show self) |}
  end.

Definition __mul__ (self arg : ERD) : ERD :=
  {| graph := graph self;
     nodes_to_show := nodes_to_show self ∩ nodes_to_show arg |}.

(** [functools.reduce(lambda x, y: x+y, map(ERD, sequence))]: [map] is
    lazy, so each diagram is built when [reduce] asks for it. *)
Fixpoint reduce_from (x : ERD) (rest : list source) : result ERD :=
  match rest with
  | [] => Ok x
  | s :: rest' =>
      y ← __init__ s;
      x' ← __add__ x (OpERD y);
      reduce_from x' rest'
  end.

Definition from_sequence (sequence : list source) : result ERD :=
  match sequence with
  | [] => Raise TypeError
  | s :: rest => x ← __init__ s; reduce_from x rest
  end.

(** *** Rendering *)

(** The graph handed to the drawing code: every node carries its
    [node_type]. *)
Record RenderGraph := MkRenderGraph {
  node_type : gmap string (option tier);
  render_edges : gset (string * string)
}.

Section MakeGraph.

(** [lookup_class_name] is imported from [datajoint/base_relation.py];
    [context] is the name space it searches. *)
Context {context : Type}.
Variable lookup_class_name : string → context → option string.

(** [lookup_class_name(node, context) or node]: [None] and the empty
    string are both false. *)
Definition display_name (ctx : context) (node : string) : string :=
  match lookup_class_name node ctx with
  | Some name => if decide (name = EmptyString) then node else name
  | None => node
  end.

(** [{n: _get_tier(n) for n in graph}] *)
Fixpoint node_types (ns : list string) : result (list (string * option tier)) :=
  match ns with
  | [] => Ok []
  | n :: rest =>
      t ← _get_tier n;
      ts ← node_types rest;
      Ok ((n, t) :: ts)
  end.

(** [nx.relabel_nodes(graph, mapping, copy=False)] renames the nodes one
    after the other, in the graph itself.  Where new names are old names
    too, it orders the nodes so that a name is free when a node takes
    it: it sorts the graph of the pairs of an old and a different new
    name, and raises [NetworkXUnfeasible] when that graph has a cycle.
    [renamed_back mapping ns start fuel n] follows the renaming from [n]
    through the nodes [ns] and tells whether it comes to [start]. *)
Fixpoint renamed_back (mapping : string → string) (ns : list string)
    (start : string) (fuel : nat) (n : string) : bool :=
  match fuel with
  | 0 => false
  | S fuel' =>
      let new := mapping n in
      if decide (new = n) then false
      else if decide (new = start) then true
      else if decide (new ∈ ns) then renamed_back mapping ns start fuel' new
      else false
  end.

Definition cyclic (mapping : string → string) (ns : list string) : bool :=
  existsb (λ n, renamed_back mapping ns n (length ns) n) ns.

(** Every node and every end of an edge is renamed.  Nodes that get one
    name become one node; a node that takes the name of a node that
    keeps its name gives it its attributes.  (Of several nodes that take
    one name, the one renamed last gives its attributes; which one that
    is depends on the order of a Python set, and the first of the list
    stands for it here.) *)
Definition relabel_nodes (types : list (string * option tier))
    (es : gset (string * string)) (mapping : string → string)
  : result RenderGraph :=
  if cyclic mapping types.*1 then Raise NetworkXUnfeasible
  else
    let renamed := filter (λ nt, mapping nt.1 ≠ nt.1) types in
    let kept := filter (λ nt, ¬ mapping nt.1 ≠ nt.1) types in
    Ok {| node_type := list_to_map (prod_map mapping id <$> renamed ++ kept);
          render_edges := set_map (prod_map mapping mapping) es |}.

Definition _make_graph (self : ERD) (ctx : context) : result RenderGraph :=
  let sub := subgraph (graph self) (nodes_to_show self) in
  types ← node_types (elements (nodes sub));
  let mapping := (λ node, (node, display_name ctx node)) <$> elements (nodes sub) in
  let new_names : list (list string) := [mapping.*2] in
  if decide (length (remove_dups new_names) < length new_names)
  then Raise (DataJointError
                "Some classes have identical names. The ERD cannot be plotted.")
  else relabel_nodes types (edges sub) (display_name ctx).

End MakeGraph.

(** *** Layout *)

(** Coordinates are exact rationals here.  Python computes them with
    floats: the two agree as long as the float operations are exact, as
    on small integers, and differ by rounding, overflow and [nan]
    elsewhere; no bound on a computed quotient is claimed below. *)

(** [min(...)] and [max(...)] of a generator: the running extremum is
    replaced by a value strictly beyond it; [ValueError] when the
    generator is empty. *)
Definition smaller (m v : Q) : Q := if Qle_bool m v then m else v.
Definition larger (m v : Q) : Q := if Qle_bool v m then m else v.

Definition min_of (l : list Q) : result Q :=
  match l with
  | [] => Raise ValueError
  | x :: l' => Ok (foldl smaller x l')
  end.

Definition max_of (l : list Q) : result Q :=
  match l with
  | [] => Raise ValueError
  | x :: l' => Ok (foldl larger x l')
  end.

Definition div (a b : Q) : result Q :=
  if Qeq_bool b 0 then Raise ZeroDivisionError else Ok (a / b)%Q.

(** The bounds [m]: [(m['x'][0], m['x'][1])] and [(m['y'][0], m['y'][1])]. *)
Record bounds := MkBounds { x0 : Q; x1 : Q; y0 : Q; y1 : Q }.

Definition bounds_of (pos : list (string * (Q * Q))) : result bounds :=
  xmin ← min_of (pos.*2.*1);
  xmax ← max_of (pos.*2.*1);
  ymin ← min_of (pos.*2.*2);
  ymax ← max_of (pos.*2.*2);
  Ok (MkBounds xmin xmax ymin ymax).

(** The comprehension that [_layout] returns. *)
Fixpoint normalized (m : bounds) (pos : list (string * (Q * Q)))
  : result (list (string * (Q * Q))) :=
  match pos with
  | [] => Ok []
  | (k, v) :: rest =>
      x ← div (v.1 - x0 m)%Q (x1 m - x0 m)%Q;
      y ← div (v.2 - x1 m)%Q (y1 m - y0 m)%Q;
      out ← normalized m rest;
      Ok ((k, (x, y)) :: out)
  end.

(** Fractions in lowest terms, to compare positions. *)
Definition lowest_terms (pos : list (string * (Q * Q))) : list (string * (Q * Q)) :=
  prod_map id (prod_map Qred Qred) <$> pos.

Section Layout.

(** [graphviz_layout(graph, prog='dot')]: a position for every node. *)
Variable graphviz_layout : RenderGraph → list (string * (Q * Q)).

Definition _layout (g : RenderGraph) : result (list (string * (Q * Q))) :=
  let pos := graphviz_layout g in
  m ← bounds_of pos;
  normalized m pos.

End Layout.

End Erd.

(** ** Concrete classes and diagrams *)

Module Examples.

Import UserRelations Erd.

(** The classes of the documentation's examples. *)
Definition MyExperiment (t : tier) : cls :=
  Class t "MyExperiment" (Some "lab") None.

Definition TrialInfo (master : option cls) : cls :=
  Class Part "TrialInfo" (Some "lab") master.

(** The graph [a → b → c] of the documentation. *)
Definition chain : DiGraph :=
  {| nodes := {[ qualified "lab" "a"; qualified "lab" "b"; qualified "lab" "c" ]};
     edges := {[ (qualified "lab" "a", qualified "lab" "b");
                 (qualified "lab" "b", qualified "lab" "c") ]} |}.

Definition chain_at (table : string) : ERD :=
  {| graph := chain; nodes_to_show := {[ qualified "lab" table ]} |}.

(** A session table with a part, a part of the part, and a table of
    another database whose name begins alike. *)
Definition sessions : DiGraph :=
  {| nodes := {[ qualified "lab" "session";
                 qualified "lab" "session__trial";
                 qualified "lab" "session__trial__spike";
                 qualified "zoo" "session__trial";
                 qualified "lab" "session_log" ]};
     edges := {[ (qualified "lab" "session", qualified "lab" "session__trial");
                 (qualified "lab" "session__trial",
                  qualified "lab" "session__trial__spike") ]} |}.

Definition session_only : ERD :=
  {| graph := sessions; nodes_to_show := {[ qualified "lab" "session" ]} |}.

(** A database with a dot in its name, a part of its table [t], and a
    table of another database. *)
Definition dotted : DiGraph :=
  {| nodes := {[ qualified "my.db" "t"; qualified "my.db" "t__p";
                 qualified "my.db__x" "u" ]};
     edges := ∅ |}.

Definition dotted_database : ERD :=
  {| graph := dotted; nodes_to_show := {[ qualified "my.db" "t" ]} |}.

(** A pipeline with tables of three tiers: [#species → subject →
    __analysis]. *)
Definition pipeline : DiGraph :=
  {| nodes := {[ qualified "lab" "#species"; qualified "lab" "subject";
                 qualified "lab" "__analysis" ]};
     edges := {[ (qualified "lab" "#species", qualified "lab" "subject");
                 (qualified "lab" "subject", qualified "lab" "__analysis") ]} |}.

Definition pipeline_all : ERD :=
  {| graph := pipeline; nodes_to_show := nodes pipeline |}.

(** A context with the classes [Species] and [Subject], and none for the
    analysis. *)
Definition lookup_pipeline (node : string) (ctx : unit) : option string :=
  if decide (node = qualified "lab" "#species") then Some "Species"
  else if decide (node = qualified "lab" "subject") then Some "Subject"
  else None.

(** A look-up that gives two tables the identifier of each other. *)
Definition lookup_exchanged (node : string) (ctx : unit) : option string :=
  if decide (node = qualified "lab" "#species") then Some (qualified "lab" "subject")
  else if decide (node = qualified "lab" "subject") then Some (qualified "lab" "#species")
  else None.

(** A graph with a node that is no identifier. *)
Definition unquoted_node : ERD :=
  {| graph := {| nodes := {[ qualified "lab" "subject"; "subject" ]}; edges := ∅ |};
     nodes_to_show := {[ qualified "lab" "subject"; "subject" ]} |}.

(** Two tables whose classes are both called [Table]. *)
Definition two_tables : ERD :=
  {| graph := {| nodes := {[ qualified "lab" "a"; qualified "zoo" "a" ]};
                 edges := ∅ |};
     nodes_to_show := {[ qualified "lab" "a"; qualified "zoo" "a" ]} |}.

Definition lookup_Table (node : string) (ctx : unit) : option string :=
  Some "Table".

(** A class statement with the members [x], [y], [z]. *)
Definition xyz : class_body nat :=
  {| module_name := 0; qualname := 0; annotations := None; docstring := None;
     members := [("x", 1); ("y", 2); ("z", 3)]; classcell := None |}.

(** A class statement with a docstring, an annotated member [y] and a
    method [f] that calls [super()]. *)
Definition documented : class_body nat :=
  {| module_name := 0; qualname := 0; annotations := Some 8; docstring := Some 9;
     members := [("x", 1); ("y", 2); ("f", 3); ("z", 4)]; classcell := Some 5 |}.

(** The positions of two nodes, as a layout engine may return them. *)
Definition two_positions : list (string * (Q * Q)) :=
  [("A", (0, 0)%Q); ("B", (10, 5)%Q)].

(** [object()]: no attribute that [__init__] looks for, and no [[0]]. *)
Definition plain_object : Object :=
  {| connection := Absent; schema := Absent; full_table_name := Absent;
     database := Absent; repr := "<object object>";
     repr_item0 := Raise TypeError |}.

(** A table object of the chain. *)
Definition table_object (table : string) : Object :=
  {| connection := Value (Some (MkConnection chain)); schema := Absent;
     full_table_name := Value (Ok (qualified "lab" table));
     database := Value "lab"; repr := table;
     repr_item0 := Raise TypeError |}.

(** A schema object of the chain's database. *)
Definition schema_object (db : string) : Object :=
  {| connection := Value (Some (MkConnection chain)); schema := Absent;
     full_table_name := Absent;
     database := Value db; repr := db;
     repr_item0 := Raise TypeError |}.

End Examples.

(** * Properties *)

Import Examples.

(** ** Table names *)

Section TableNames.

Import UserRelations.

Variable from_camel_case : string → string.

Local Abbreviation table_name := (table_name from_camel_case).
Local Abbreviation full_table_name := (full_table_name from_camel_case).

(** The four top-level tiers always have a table name. *)
Lemma table_name_top_tier c :
  cls_tier c ≠ Part →
  ∃ p, _prefix (cls_tier c) = Some p ∧
       table_name c = Ok (Some (p +:+ from_camel_case (__name__ c))).
Proof.
  destruct c as [t name db master]; simpl.
  destruct t; intros Ht; try done; eexists; (split; [reflexivity|done]).
Qed.

(** C1. Under Manual, Lookup, Imported and Computed, [table_name] is the
    tier's literal prefix (empty, [#], [_], [__]) followed by the
    snake-case conversion of the class name.  For a Part class it is absent
    when no master is bound, and otherwise the master's table name, then
    [__], then the conversion of the Part class's own name. *)
Theorem table_name_of_tier :
  (∀ name db master,
     table_name (Class Manual name db master)
     = Ok (Some (EmptyString +:+ from_camel_case name))) ∧
  (∀ name db master,
     table_name (Class Lookup name db master)
     = Ok (Some ("#" +:+ from_camel_case name))) ∧
  (∀ name db master,
     table_name (Class Imported name db master)
     = Ok (Some ("_" +:+ from_camel_case name))) ∧
  (∀ name db master,
     table_name (Class Computed name db master)
     = Ok (Some ("__" +:+ from_camel_case name))) ∧
  (∀ name db, table_name (Class Part name db None) = Ok None) ∧
  (∀ name db master t,
     table_name master = Ok (Some t) →
     table_name (Class Part name db (Some master))
     = Ok (Some (t +:+ "__" +:+ from_camel_case name))).
Proof.
  repeat split; try done.
  intros name db master t Hm. simpl. by rewrite Hm.
Qed.

(** C2. Without a database, [full_table_name] of a class of a top-level
    tier raises the declaration error; of a Part class without a database
    or without a table name it is absent; and with both in place it is
    the two names, each between backticks, joined by a dot. *)
Theorem full_table_name_binding :
  (∀ t name master,
     t ≠ Part →
     full_table_name (Class t name None master)
     = Raise (DataJointError
                ("Class " +:+ name +:+
                 " is not properly declared (schema decorator not applied?)"))) ∧
  (∀ c,
     cls_tier c = Part →
     database c = None ∨ table_name c = Ok None →
     full_table_name c = Ok None) ∧
  (∀ c db tn,
     database c = Some db →
     table_name c = Ok (Some tn) →
     full_table_name c = Ok (Some ("`" +:+ db +:+ "`.`" +:+ tn +:+ "`"))).
Proof.
  split; [|split].
  - intros t name master Ht. by destruct t.
  - intros [t name db master] Ht Habsent. simpl in Ht. subst t.
    unfold UserRelations.full_table_name. simpl cls_tier. simpl database.
    destruct Habsent as [Hdb|Htn].
    + simpl in Hdb. by subst db.
    + destruct db as [db|]; [|done]. by rewrite Htn.
  - intros [t name db' master] db tn Hdb Htn. simpl in Hdb. subst db'.
    unfold UserRelations.full_table_name. simpl cls_tier. simpl database.
    destruct t; rewrite ?Htn; done.
Qed.

End TableNames.

Lemma table_name_of_tier_witness :
  UserRelations.table_name Utils.from_camel_case (MyExperiment UserRelations.Manual)
  = Ok (Some "my_experiment") ∧
  UserRelations.table_name Utils.from_camel_case (MyExperiment UserRelations.Lookup)
  = Ok (Some "#my_experiment") ∧
  UserRelations.table_name Utils.from_camel_case
    (TrialInfo (Some (MyExperiment UserRelations.Manual)))
  = Ok (Some "my_experiment__trial_info").
Proof.
  destruct (table_name_of_tier Utils.from_camel_case)
    as (Hmanual & Hlookup & _ & _ & _ & Hpart).
  split; [|split].
  - exact (Hmanual "MyExperiment" (Some "lab") None).
  - exact (Hlookup "MyExperiment" (Some "lab") None).
  - exact (Hpart "TrialInfo" (Some "lab") (MyExperiment UserRelations.Manual)
             "my_experiment" eq_refl).
Defined.

Lemma full_table_name_binding_witness :
  UserRelations.full_table_name Utils.from_camel_case
    (UserRelations.Class UserRelations.Manual "MyExperiment" None None)
  = Raise (DataJointError
      "Class MyExperiment is not properly declared (schema decorator not applied?)") ∧
  UserRelations.full_table_name Utils.from_camel_case (TrialInfo None) = Ok None ∧
  UserRelations.full_table_name Utils.from_camel_case
    (TrialInfo (Some (MyExperiment UserRelations.Manual)))
  = Ok (Some "`lab`.`my_experiment__trial_info`").
Proof.
  destruct (full_table_name_binding Utils.from_camel_case)
    as (Hraise & Habsent & Hbound).
  split; [|split].
  - apply (Hraise UserRelations.Manual "MyExperiment" None). discriminate.
  - apply (Habsent (TrialInfo None)); [reflexivity | right; reflexivity].
  - apply (Hbound (TrialInfo (Some (MyExperiment UserRelations.Manual)))
             "lab" "my_experiment__trial_info"); reflexivity.
Defined.

(** ** Splitting a string *)

Section Split.

Import Str.

Lemma string_app_cons a s1 s2 : String a s1 +:+ s2 = String a (s1 +:+ s2).
Proof. reflexivity. Qed.

Lemma string_app_assoc s1 s2 s3 : (s1 +:+ s2) +:+ s3 = s1 +:+ (s2 +:+ s3).
Proof. induction s1 as [|a s1 IH]; [done|]. by rewrite !string_app_cons, IH. Qed.

Lemma string_length_app s1 s2 :
  String.length (s1 +:+ s2) = String.length s1 + String.length s2.
Proof. induction s1 as [|a s1 IH]; [done|]. rewrite string_app_cons. simpl. by rewrite IH. Qed.

Lemma split_nonempty c s : ∃ h t, split c s = h :: t.
Proof.
  induction s as [|a s (h & t & IH)]; simpl; [by eauto|].
  case_decide; [by eauto|]. rewrite IH. by eauto.
Qed.

Lemma split_none c s : contains c s = false → split c s = [s].
Proof.
  induction s as [|a s IH]; simpl; [done|].
  intros [Ha Hs]%orb_false_iff. apply bool_decide_eq_false in Ha.
  rewrite decide_False by done. by rewrite IH.
Qed.

Lemma split_app c s1 s2 :
  split c (s1 +:+ String c s2) = split c s1 ++ split c s2.
Proof.
  induction s1 as [|a s1 IH]; simpl.
  - by rewrite decide_True.
  - fold (s1 +:+ String c s2). rewrite IH.
    case_decide; [done|].
    by destruct (split_nonempty c s1) as (h & t & ->).
Qed.

(** The last but one piece of a string that ends with [c], [segment], [c]. *)
Lemma index_neg2_split c pre segment :
  contains c segment = false →
  index_neg2 (split c (pre +:+ String c (segment +:+ String c EmptyString)))
  = Ok segment.
Proof.
  intros Hseg. rewrite !split_app, (split_none c segment) by done.
  unfold index_neg2. by rewrite !rev_app_distr.
Qed.

End Split.

(** ** Matching decides the language of a pattern *)

Section Matching.

Import Re.

Lemma app_empty_inv s1 s2 :
  s1 +:+ s2 = EmptyString → s1 = EmptyString ∧ s2 = EmptyString.
Proof. by destruct s1. Qed.

Lemma nullable_lang r : nullable r = true ↔ lang r EmptyString.
Proof.
  split.
  - induction r; simpl; try done.
    + intros _. constructor.
    + intros [H1 H2]%andb_true_iff.
      apply (lang_cat _ _ EmptyString EmptyString); auto.
    + intros [H|H]%orb_true_iff; [apply lang_alt_l|apply lang_alt_r]; auto.
    + intros _. constructor.
  - intros H. remember EmptyString as s eqn:Hs.
    induction H; simpl; try done.
    + apply app_empty_inv in Hs as [-> ->]. by rewrite IHlang1, IHlang2.
    + by rewrite IHlang.
    + rewrite IHlang by done. by rewrite orb_true_r.
Qed.

Lemma deriv_sound a r s : lang (deriv a r) s → lang r (String a s).
Proof.
  revert s. induction r as [| |c|ranges|r1 IH1 r2 IH2|r1 IH1 r2 IH2|r IH];
    intros s; simpl.
  - inversion 1.
  - inversion 1.
  - case_decide as Hc; inversion 1; subst. constructor.
  - destruct (in_class a ranges) eqn:Hc; inversion 1; subst. by constructor.
  - assert (∀ s, lang (Cat (deriv a r1) r2) s → lang (Cat r1 r2) (String a s))
      as Hcat.
    { intros s'. inversion 1; subst.
      apply (lang_cat r1 r2 (String a s1) s2); auto. }
    destruct (nullable r1) eqn:Hnull; [|by apply Hcat].
    inversion 1; subst; [by apply Hcat|].
    apply (lang_cat r1 r2 EmptyString (String a s)); [|by auto].
    by apply nullable_lang.
  - inversion 1; subst; [apply lang_alt_l|apply lang_alt_r]; auto.
  - inversion 1; subst.
    apply (lang_star_cons r (String a s1) s2); auto.
Qed.

Lemma deriv_complete a r s : lang r (String a s) → lang (deriv a r) s.
Proof.
  intros H. remember (String a s) as s0 eqn:Hs0. revert s Hs0.
  induction H as [|c|c ranges Hc|r1 r2 s1 s2 H1 IH1 H2 IH2
                  |r1 r2 s0 H IH|r1 r2 s0 H IH| |r s1 s2 H1 IH1 H2 IH2];
    intros s Hs0; simpl.
  - done.
  - injection Hs0 as -> <-. rewrite decide_True by done. constructor.
  - injection Hs0 as -> <-. rewrite Hc. constructor.
  - destruct s1 as [|b s1].
    + apply nullable_lang in H1 as ->. apply lang_alt_r. by apply IH2.
    + injection Hs0 as -> <-.
      assert (lang (Cat (deriv a r1) r2) (s1 +:+ s2)) as Hcat.
      { apply lang_cat; [by apply IH1|done]. }
      destruct (nullable r1); [by apply lang_alt_l|done].
  - apply lang_alt_l. by apply IH.
  - apply lang_alt_r. by apply IH.
  - done.
  - destruct s1 as [|b s1].
    + by apply IH2.
    + injection Hs0 as -> <-. apply lang_cat; [by apply IH1|done].
Qed.

(** [matches] is membership in the language. *)
Lemma matches_lang r s : matches r s = true ↔ lang r s.
Proof.
  revert r. induction s as [|a s IH]; intros r; simpl.
  - apply nullable_lang.
  - rewrite IH. split; [apply deriv_sound|apply deriv_complete].
Qed.

End Matching.

(** ** Tier classification *)

Section Tiers.

Import UserRelations Erd.

Lemma tier_regexp_compiles t : is_Some (Re.compile (tier_regexp t)).
Proof. destruct t; vm_compute; eauto. Qed.

Lemma fullmatch_tier t segment :
  Re.fullmatch (tier_regexp t) segment = Ok (fully_matches segment t).
Proof.
  unfold fully_matches, Re.fullmatch.
  destruct (tier_regexp_compiles t) as [r ->]. by destruct (Re.matches r segment).
Qed.

Lemma next_tier_find classes name segment :
  Str.index_neg2 (Str.split "`" name) = Ok segment →
  next_tier classes name = Ok (List.find (fully_matches segment) classes).
Proof.
  intros Hseg. induction classes as [|t classes IH]; simpl; [done|].
  rewrite Hseg. simpl. rewrite fullmatch_tier. simpl.
  by destruct (fully_matches segment t).
Qed.

Lemma qualified_segment db table :
  Str.contains "`" table = false →
  Str.index_neg2 (Str.split "`" (qualified db table)) = Ok table.
Proof.
  intros Htable.
  replace (qualified db table)
    with (("`" +:+ db +:+ "`.") +:+ String "`" (table +:+ String "`" EmptyString)).
  - by apply index_neg2_split.
  - unfold qualified. by rewrite !string_app_assoc.
Qed.

(** C3. The tier of a fully-qualified identifier is the first of Manual,
    Lookup, Computed, Imported, Part, in this order, whose pattern fully
    matches the table-name segment, and none when no pattern does.  The
    segments [mytable], [#mytable], [_mytable], [__mytable] are Manual,
    Lookup, Imported, Computed; [CapitalName] and [1table] have no tier. *)
Theorem get_tier_first_match :
  (∀ db table,
     Str.contains "`" table = false →
     _get_tier (qualified db table)
     = Ok (List.find (fully_matches table)
             [Manual; Lookup; Computed; Imported; Part])) ∧
  (∀ db, _get_tier (qualified db "mytable") = Ok (Some Manual)) ∧
  (∀ db, _get_tier (qualified db "#mytable") = Ok (Some Lookup)) ∧
  (∀ db, _get_tier (qualified db "_mytable") = Ok (Some Imported)) ∧
  (∀ db, _get_tier (qualified db "__mytable") = Ok (Some Computed)) ∧
  (∀ db, _get_tier (qualified db "CapitalName") = Ok None) ∧
  (∀ db, _get_tier (qualified db "1table") = Ok None).
Proof.
  assert (∀ db table,
     Str.contains "`" table = false →
     _get_tier (qualified db table)
     = Ok (List.find (fully_matches table)
             [Manual; Lookup; Computed; Imported; Part])) as Hfind.
  { intros db table Htable. by apply next_tier_find, qualified_segment. }
  split; [done|].
  repeat split; intros db; by rewrite Hfind.
Qed.

Lemma get_tier_first_match_witness :
  _get_tier (qualified "lab" "my_experiment__trial_info") = Ok (Some Part).
Proof.
  destruct get_tier_first_match as [Hfind _].
  rewrite (Hfind "lab" "my_experiment__trial_info"); reflexivity.
Defined.

End Tiers.

(** ** Expansion by hops *)

Section Hops.

Import Erd.

Lemma elem_of_successors G u v : v ∈ successors G u ↔ (u, v) ∈ edges G.
Proof.
  unfold successors. rewrite elem_of_map. split.
  - intros ([u' v'] & -> & Hin). apply elem_of_filter in Hin as [Hu He].
    simpl in *. by subst.
  - intros He. exists (u, v). split; [done|]. by apply elem_of_filter.
Qed.

Lemma elem_of_downstream_boundary G shown v :
  v ∈ downstream_boundary G shown ↔ (v ∉ shown) ∧ (∃ u, u ∈ shown ∧ (u, v) ∈ edges G).
Proof.
  unfold downstream_boundary. rewrite elem_of_filter, elem_of_map.
  split; intros [Hv H]; (split; [done|]).
  - destruct H as ([u v'] & -> & Hin). apply elem_of_filter in Hin as [Hu He].
    by exists u.
  - destruct H as (u & Hu & He). exists (u, v). split; [done|].
    by apply elem_of_filter.
Qed.

Lemma elem_of_upstream_boundary G shown u :
  u ∈ upstream_boundary G shown ↔ (u ∉ shown) ∧ (∃ v, v ∈ shown ∧ (u, v) ∈ edges G).
Proof.
  unfold upstream_boundary. rewrite elem_of_filter, elem_of_map.
  split; intros [Hu H]; (split; [done|]).
  - destruct H as ([u' v] & -> & Hin). apply elem_of_filter in Hin as [Hv He].
    by exists v.
  - destruct H as (v & Hv & He). exists (u, v). split; [done|].
    by apply elem_of_filter.
Qed.

Lemma elem_of_edges_reverse G u v : (u, v) ∈ edges (reverse G) ↔ (v, u) ∈ edges G.
Proof.
  unfold reverse. simpl. rewrite elem_of_map. split.
  - by intros ([a b] & [= -> ->] & He).
  - intros He. by exists (v, u).
Qed.

Lemma wf_reverse G : wf G → wf (reverse G).
Proof.
  intros Hwf [u v] He. apply (proj1 (elem_of_edges_reverse G u v)) in He.
  destruct (Hwf _ He). by split.
Qed.

Lemma wf_edge G u v : wf G → (u, v) ∈ edges G → u ∈ nodes G ∧ v ∈ nodes G.
Proof. intros Hwf He. exact (Hwf _ He). Qed.

(** On a graph of [networkx], [node_boundary] is the downstream boundary. *)
Lemma node_boundary_downstream G shown :
  wf G → node_boundary G shown = downstream_boundary G shown.
Proof.
  intros Hwf. apply set_eq. intros v.
  rewrite elem_of_downstream_boundary. unfold node_boundary.
  rewrite elem_of_difference, elem_of_set_bind. split.
  - intros [(u & Hin & Hv) Hnot]. apply elem_of_successors in Hv.
    apply elem_of_filter in Hin as [Hu Hs]. split.
    + intros Hshown. apply Hnot, elem_of_filter. split; [|done].
      by destruct (wf_edge G u v).
    + by exists u.
  - intros [Hnot (u & Hu & He)]. split.
    + exists u. split; [|by apply elem_of_successors].
      apply elem_of_filter. split; [|done]. by destruct (wf_edge G u v).
    + intros Hin. by apply elem_of_filter in Hin as [_ ?].
Qed.

Lemma downstream_reverse G shown :
  downstream_boundary (reverse G) shown = upstream_boundary G shown.
Proof.
  apply set_eq. intros v.
  rewrite elem_of_downstream_boundary, elem_of_upstream_boundary.
  by setoid_rewrite elem_of_edges_reverse.
Qed.

Lemma node_boundary_upstream G shown :
  wf G → node_boundary (reverse G) shown = upstream_boundary G shown.
Proof.
  intros Hwf. rewrite node_boundary_downstream by by apply wf_reverse.
  apply downstream_reverse.
Qed.

(** The loop makes the hops of [expands_by_hops]. *)
Lemma expand_hops G boundary hops shown :
  (∀ S, node_boundary G S = boundary S) →
  ∃ k : nat,
    k ≤ hops ∧
    expand G hops shown = Nat.iter k (hop boundary) shown ∧
    (∀ i, i < k → boundary (Nat.iter i (hop boundary) shown) ≠ ∅) ∧
    (k < hops → boundary (expand G hops shown) = ∅).
Proof.
  intros Hbd. revert shown.
  induction hops as [|hops IH]; intros shown; simpl.
  - exists 0. repeat split; [done|lia|lia].
  - rewrite Hbd. case_decide as Hnew.
    + exists 0. repeat split; [lia|lia|done].
    + destruct (IH (shown ∪ boundary shown)) as (k & Hk & Heq & Hsteps & Hstop).
      exists (S k). rewrite Nat.iter_succ_r. repeat split.
      * lia.
      * done.
      * intros [|i] Hi; [done|]. rewrite Nat.iter_succ_r. apply Hsteps. lia.
      * intros Hlt. apply Hstop. lia.
Qed.

(** C4. [e + n] makes at most [n] downstream hops, each one adding the
    nodes that one outgoing edge reaches from the shown set and that are
    not shown yet, and stops at the first hop that would add nothing; for
    [n] zero or negative the shown set is that of [e]; [e - n] does the
    same upstream, against the edges. *)
Theorem expansion_by_hops (e : ERD) (n : Z) :
  wf (graph e) →
  (∃ e', __add__ e (OpInt n) = Ok e' ∧
         graph e' = graph e ∧
         expands_by_hops (downstream_boundary (graph e)) n
           (nodes_to_show e) (nodes_to_show e') ∧
         ((n ≤ 0)%Z → nodes_to_show e' = nodes_to_show e)) ∧
  (∃ e', __sub__ e (OpInt n) = Ok e' ∧
         graph e' = graph e ∧
         expands_by_hops (upstream_boundary (graph e)) n
           (nodes_to_show e) (nodes_to_show e') ∧
         ((n ≤ 0)%Z → nodes_to_show e' = nodes_to_show e)).
Proof.
  intros Hwf. split; eexists; (split; [reflexivity|]); simpl;
    (split; [done|]); split.
  - destruct (expand_hops (graph e) (downstream_boundary (graph e))
                (Z.to_nat n) (nodes_to_show e)) as (k & ? & ? & ? & ?).
    { intros S. by apply node_boundary_downstream. }
    by exists k.
  - intros Hn. by replace (Z.to_nat n) with 0 by lia.
  - destruct (expand_hops (reverse (graph e)) (upstream_boundary (graph e))
                (Z.to_nat n) (nodes_to_show e)) as (k & ? & ? & ? & ?).
    { intros S. by apply node_boundary_upstream. }
    by exists k.
  - intros Hn. by replace (Z.to_nat n) with 0 by lia.
Qed.

Lemma chain_wf : wf chain.
Proof. apply (bool_decide_unpack _). by vm_compute. Defined.

Example chain_downstream :
  nodes_to_show <$> __add__ (chain_at "a") (OpInt 1)
  = Ok {[ qualified "lab" "a"; qualified "lab" "b" ]} ∧
  nodes_to_show <$> __add__ (chain_at "a") (OpInt 5)
  = Ok {[ qualified "lab" "a"; qualified "lab" "b"; qualified "lab" "c" ]} ∧
  nodes_to_show <$> __sub__ (chain_at "c") (OpInt 1)
  = Ok {[ qualified "lab" "b"; qualified "lab" "c" ]}.
Proof. repeat split; by vm_compute. Qed.

Lemma expansion_by_hops_witness :
  wf chain ∧
  (∃ e', __add__ (chain_at "a") (OpInt 1) = Ok e' ∧
         graph e' = chain ∧
         expands_by_hops (downstream_boundary chain) 1
           {[ qualified "lab" "a" ]} (nodes_to_show e') ∧
         ((1 ≤ 0)%Z → nodes_to_show e' = {[ qualified "lab" "a" ]})) ∧
  (∃ e', __sub__ (chain_at "a") (OpInt 1) = Ok e' ∧
         graph e' = chain ∧
         expands_by_hops (upstream_boundary chain) 1
           {[ qualified "lab" "a" ]} (nodes_to_show e') ∧
         ((1 ≤ 0)%Z → nodes_to_show e' = {[ qualified "lab" "a" ]})).
Proof.
  split; [exact chain_wf|].
  exact (expansion_by_hops (chain_at "a") 1 chain_wf).
Defined.

End Hops.

(** ** Part tables in the diagram *)

Section Parts.

Import Str Erd.

(** The slice [s[:len(p)]] is [p] exactly when [s] begins with [p]. *)
Lemma slice_to_prefix p s :
  p = slice_to (String.length p) s ↔ ∃ rest, s = p +:+ rest.
Proof.
  revert s. induction p as [|a p IH]; intros s; simpl.
  - split; [by exists s|done].
  - destruct s as [|b s].
    + split; [done|]. by intros [rest Hrest].
    + split.
      * intros [= -> Hp]. apply IH in Hp as [rest ->]. by exists rest.
      * intros [rest Hrest]. rewrite string_app_cons in Hrest.
        injection Hrest as -> Hs. f_equal. apply IH. by exists rest.
Qed.

Lemma split_dotted c s :
  contains c s = true → ∃ a b rest, split c s = a :: b :: rest.
Proof.
  induction s as [|x s IH]; simpl; [done|].
  intros Hc. case_decide as Hx.
  - destruct (split_nonempty c s) as (h & t & ->). by eauto.
  - apply orb_true_iff in Hc as [Hc|Hc].
    + by apply bool_decide_eq_true in Hc.
    + destruct (IH Hc) as (a & b & rest & ->). by eauto.
Qed.

(** [is_part] on two identifiers with a dot decides part-of. *)
Lemma is_part_dotted part master :
  contains "." part = true → contains "." master = true →
  ∃ b : bool, is_part part master = Ok b ∧ (b = true ↔ part_of part master).
Proof.
  intros Hp Hm. unfold is_part, part_of, db_segment, table_segment.
  destruct (split_dotted _ _ Hp) as (p0 & p1 & prest & ->).
  destruct (split_dotted _ _ Hm) as (m0 & m1 & mrest & ->).
  simpl. case_bool_decide as Hdb; simpl.
  - eexists. split; [reflexivity|].
    rewrite bool_decide_eq_true.
    replace (String.length (strip "`" m1) + 2)
      with (String.length (strip "`" m1 +:+ "__"))
      by (by rewrite string_length_app).
    rewrite slice_to_prefix. split.
    + intros [rest Hrest]. split; [done|]. exists rest. by rewrite Hrest, string_app_assoc.
    + intros [_ [rest Hrest]]. exists rest. by rewrite Hrest, string_app_assoc.
  - exists false. split; [done|]. split; [done|]. by intros [? _].
Qed.

Lemma part_of_trans n m s : part_of n m → part_of m s → part_of n s.
Proof.
  intros [Hdb1 [r1 Hr1]] [Hdb2 [r2 Hr2]]. split; [congruence|].
  exists (r2 +:+ "__" +:+ r1). rewrite Hr1, Hr2. by rewrite !string_app_assoc.
Qed.

Lemma any_is_part_dotted n shown :
  contains "." n = true →
  (∀ m, m ∈ shown → contains "." m = true) →
  ∃ b : bool, any_is_part n shown = Ok b ∧
              (b = true ↔ ∃ m, m ∈ shown ∧ part_of n m).
Proof.
  intros Hn. induction shown as [|m shown IH]; intros Hshown; simpl.
  - exists false. split; [done|]. split; [done|]. by intros (m & Hm%elem_of_nil & _).
  - destruct (is_part_dotted n m Hn) as (b & -> & Hb).
    { apply Hshown. by left. }
    simpl. destruct b.
    + exists true. split; [done|]. split; [|done]. intros _. exists m.
      split; [by left|]. by apply Hb.
    + destruct IH as (b & -> & Hb').
      { intros m' Hm'. apply Hshown. by right. }
      exists b. split; [done|]. rewrite Hb'. split.
      * intros (m' & Hm' & Hpart). exists m'. split; [by right|done].
      * intros (m' & Hm' & Hpart). apply elem_of_cons in Hm' as [->|Hm'].
        -- apply Hb in Hpart. done.
        -- by exists m'.
Qed.

(** The update, one node at a time: what is added is what is part of an
    originally shown node, because a part of a part of [m] is a part of
    [m]. *)
Lemma update_with_parts_dotted (shown0 : gset string) pending (shown : gset string) :
  (∀ n, n ∈ pending → contains "." n = true) →
  (∀ m, m ∈ shown → contains "." m = true) →
  shown0 ⊆ shown →
  (∀ x, x ∈ shown → x ∈ shown0 ∨ ∃ m, m ∈ shown0 ∧ part_of x m) →
  ∃ shown', update_with_parts pending shown = Ok shown' ∧
    ∀ x, x ∈ shown' ↔
         x ∈ shown ∨ (x ∈ pending ∧ ∃ m, m ∈ shown0 ∧ part_of x m).
Proof.
  revert shown. induction pending as [|n pending IH];
    intros shown Hpending Hdots Hsub Hinv; simpl.
  - exists shown. split; [done|]. intros x. split; [by left|].
    intros [?|[Hx%elem_of_nil _]]; done.
  - destruct (any_is_part_dotted n (elements shown)) as (b & -> & Hb).
    { apply Hpending. by left. }
    { intros m Hm%elem_of_elements. by apply Hdots. }
    simpl.
    assert (b = true ↔ ∃ m, m ∈ shown0 ∧ part_of n m) as Hb0.
    { rewrite Hb. split.
      - intros (m & Hm%elem_of_elements & Hpart).
        destruct (Hinv m Hm) as [Hm0|(m0 & Hm0 & Hpart0)].
        + by exists m.
        + exists m0. split; [done|]. by apply part_of_trans with m.
      - intros (m & Hm & Hpart). exists m. split; [|done].
        apply elem_of_elements. by apply Hsub. }
    destruct (IH (if b then {[ n ]} ∪ shown else shown)) as (shown' & -> & Hshown').
    + intros n' Hn'. apply Hpending. by right.
    + intros m. destruct b; [|by apply Hdots].
      intros [->%elem_of_singleton|Hm]%elem_of_union; [|by apply Hdots].
      apply Hpending. by left.
    + destruct b; [|done]. by apply union_subseteq_r'.
    + intros x. destruct b; [|by apply Hinv].
      intros [->%elem_of_singleton|Hx]%elem_of_union; [|by apply Hinv].
      right. by apply Hb0.
    + exists shown'. split; [done|]. intros x. rewrite Hshown'.
      rewrite elem_of_cons. destruct b.
      * rewrite elem_of_union, elem_of_singleton. split.
        -- intros [[->|?]|[? ?]]; [|by left|by right; split; [right|]].
           right. split; [by left|]. by apply Hb0.
        -- intros [?|[[->|?] ?]]; [by left; right|by left; left|by right].
      * split.
        -- intros [?|[? ?]]; [by left|by right; split; [right|]].
        -- intros [?|[[->|?] Hpart]]; [by left| |by right].
           apply Hb0 in Hpart. done.
Qed.

(** [add_parts] on identifiers with a dot, by what [is_part] compares. *)
Lemma add_parts_dotted (e : ERD) :
  (∀ n, n ∈ nodes (graph e) ∪ nodes_to_show e → contains "." n = true) →
  ∃ e1,
    add_parts e = Ok e1 ∧
    graph e1 = graph e ∧
    (∀ n, n ∈ nodes_to_show e1 ↔
          n ∈ nodes_to_show e ∨
          (n ∈ nodes (graph e) ∧ ∃ m, m ∈ nodes_to_show e ∧ part_of n m)) ∧
    add_parts e1 = Ok e1.
Proof.
  intros Hdots. destruct e as [G shown]; simpl in *.
  destruct (update_with_parts_dotted shown (elements (nodes G)) shown)
    as (shown1 & Hrun1 & Hshown1).
  { intros n Hn%elem_of_elements. apply Hdots. by apply elem_of_union_l. }
  { intros m Hm. apply Hdots. by apply elem_of_union_r. }
  { done. }
  { intros x Hx. by left. }
  assert (∀ n, n ∈ shown1 ↔
            n ∈ shown ∨ (n ∈ nodes G ∧ ∃ m, m ∈ shown ∧ part_of n m)) as Hspec1.
  { intros n. rewrite Hshown1. by rewrite elem_of_elements. }
  destruct (update_with_parts_dotted shown (elements (nodes G)) shown1)
    as (shown2 & Hrun2 & Hshown2).
  { intros n Hn%elem_of_elements. apply Hdots. by apply elem_of_union_l. }
  { intros m [Hm|[Hm _]]%Hspec1; apply Hdots;
      [by apply elem_of_union_r|by apply elem_of_union_l]. }
  { intros x Hx. apply Hspec1. by left. }
  { intros x [Hx|[_ Hx]]%Hspec1; [by left|by right]. }
  assert (shown2 = shown1) as ->.
  { apply set_eq. intros x. rewrite Hshown2, elem_of_elements. split.
    - intros [Hx|Hx]; [done|]. apply Hspec1. by right.
    - intros Hx. by left. }
  exists (MkERD G shown1). unfold add_parts. simpl.
  rewrite Hrun1, Hrun2. done.
Qed.

(** *** The pieces of [`db`.`table`] *)

Lemma contains_app c s1 s2 :
  contains c (s1 +:+ s2) = contains c s1 || contains c s2.
Proof.
  induction s1 as [|a s1 IH]; [done|].
  rewrite string_app_cons. simpl. by rewrite IH, orb_assoc.
Qed.

Lemma rstrip_closed c name :
  contains c name = false → rstrip c (name +:+ String c EmptyString) = name.
Proof.
  induction name as [|a name IH]; simpl.
  - intros _. by rewrite decide_True.
  - intros [Ha Hname]%orb_false_iff. apply bool_decide_eq_false in Ha.
    fold (name +:+ String c EmptyString). rewrite IH by done.
    destruct name; [|done]. by rewrite decide_False.
Qed.

(** [strip] takes the two backticks off a quoted name, and no more. *)
Lemma strip_quoted c name :
  contains c name = false →
  strip c (String c (name +:+ String c EmptyString)) = name.
Proof.
  intros Hname. unfold strip. simpl. rewrite decide_True by done.
  destruct name as [|a name].
  - simpl. by rewrite decide_True.
  - pose proof Hname as Hname'. simpl in Hname'.
    apply orb_false_iff in Hname' as [Ha _]. apply bool_decide_eq_false in Ha.
    rewrite string_app_cons. simpl lstrip. rewrite decide_False by done.
    rewrite <- string_app_cons. by apply rstrip_closed.
Qed.

Lemma qualified_quoted db table :
  qualified db table
  = String "`" (db +:+ "`") +:+ String "." (String "`" (table +:+ "`")).
Proof.
  unfold qualified.
  by rewrite (string_app_cons "`" (db +:+ "`")), (string_app_assoc db "`").
Qed.

Lemma qualified_dotted db table : contains "." (qualified db table) = true.
Proof.
  rewrite qualified_quoted, contains_app. simpl.
  by rewrite orb_true_r.
Qed.

Lemma quoted_undotted name :
  contains "." name = false → contains "." (String "`" (name +:+ "`")) = false.
Proof. intros Hname. simpl. by rewrite contains_app, Hname. Qed.

(** [split] and [strip] find the two names of an identifier when the
    names hold no dot and no backtick. *)
Lemma qualified_segments db table :
  contains "." db = false → unquoted db →
  contains "." table = false → unquoted table →
  db_segment (qualified db table) = db ∧
  table_segment (qualified db table) = table.
Proof.
  intros Hdb Hqdb Htable Hqtable. unfold db_segment, table_segment.
  rewrite qualified_quoted, split_app.
  rewrite !split_none by by apply quoted_undotted.
  simpl. split; by apply strip_quoted.
Qed.

Lemma unquoted_cut c x x' r r' :
  contains c x = false → contains c x' = false →
  x +:+ String c r = x' +:+ String c r' → x = x' ∧ r = r'.
Proof.
  revert x'. induction x as [|a x IH]; intros [|a' x']; simpl.
  - intros _ _ [= ->]. done.
  - intros _ [Ha _]%orb_false_iff. apply bool_decide_eq_false in Ha.
    rewrite string_app_cons. intros [= <- _]. done.
  - intros [Ha _]%orb_false_iff _. apply bool_decide_eq_false in Ha.
    rewrite string_app_cons. intros [= -> _]. done.
  - intros [_ Hx]%orb_false_iff [_ Hx']%orb_false_iff.
    rewrite !string_app_cons. intros [= -> Heq].
    destruct (IH x' Hx Hx' Heq) as [-> ->]. done.
Qed.

(** An identifier has its two names once: between backticks, a name
    without backtick ends at the next backtick. *)
Lemma qualified_inj db table db' table' :
  unquoted db → unquoted table → unquoted db' → unquoted table' →
  qualified db table = qualified db' table' → db = db' ∧ table = table'.
Proof.
  intros Hdb Htable Hdb' Htable'. unfold qualified.
  change ("`" +:+ db +:+ "`.`" +:+ table +:+ "`")
    with (String "`" (db +:+ String "`" (String "." (String "`" (table +:+ "`"))))).
  change ("`" +:+ db' +:+ "`.`" +:+ table' +:+ "`")
    with (String "`" (db' +:+ String "`" (String "." (String "`" (table' +:+ "`"))))).
  intros [= Heq].
  apply unquoted_cut in Heq as [-> Heq]; [|done..].
  injection Heq as Heq.
  apply unquoted_cut in Heq as [-> _]; done.
Qed.

(** On identifiers whose names hold no dot and no backtick, [is_part]
    compares the two names: what it decides is part-of. *)
Lemma part_of_plain n m :
  plain_identifier n → plain_identifier m → part_of n m ↔ part_of_master n m.
Proof.
  intros (db & table & -> & Hdb & Hqdb & Htable & Hqtable)
         (mdb & mtable & -> & Hmdb & Hqmdb & Hmtable & Hqmtable).
  unfold part_of, part_of_master.
  destruct (qualified_segments db table) as [-> ->]; [done..|].
  destruct (qualified_segments mdb mtable) as [-> ->]; [done..|].
  split.
  - intros [-> [rest ->]]. by exists mdb, (mtable +:+ "__" +:+ rest), mtable, rest.
  - intros (db' & table' & mtable' & rest & Hn & Hm & Hqdb' & Hqtable' & Hqmtable' & ->).
    apply qualified_inj in Hn as [-> ->]; [|done..].
    apply qualified_inj in Hm as [-> ->]; [|done..].
    split; [done|]. by exists rest.
Qed.


Example add_parts_sessions :
  nodes_to_show <$> add_parts session_only
  = Ok {[ qualified "lab" "session"; qualified "lab" "session__trial";
          qualified "lab" "session__trial__spike" ]}.
Proof. by vm_compute. Qed.

Lemma all_dotted (X : gset string) :
  bool_decide (set_Forall (λ n, contains "." n = true) X) = true →
  ∀ n, n ∈ X → contains "." n = true.
Proof. intros H%bool_decide_eq_true n Hn. by apply H. Qed.



End Parts.

(** ** The render graph *)

Section MakeGraphProperties.

Import UserRelations Erd.

Context {context : Type} (lookup_class_name : string → context → option string).

Lemma next_tier_error classes name e :
  next_tier classes name = Raise e → e = IndexError ∨ e = ReError.
Proof.
  induction classes as [|t classes IH]; simpl; [done|].
  unfold Str.index_neg2. destruct (rev _) as [|? [|segment ?]]; simpl;
    try (intros [= <-]; by left).
  unfold Re.fullmatch. destruct (Re.compile _); simpl.
  - destruct (Re.matches _ _); [done|apply IH].
  - intros [= <-]. by right.
Qed.

Lemma node_types_error ns e :
  node_types ns = Raise e → e = IndexError ∨ e = ReError.
Proof.
  induction ns as [|n ns IH]; simpl; [done|].
  destruct (_get_tier n) as [t|e'] eqn:Ht; simpl.
  - destruct (node_types ns); simpl; [done|]. intros [= <-]. by apply IH.
  - intros [= <-]. by apply next_tier_error in Ht.
Qed.

(** The list that is tested for duplicates has one element, so the test
    never finds any: [_make_graph] does not raise the error it has for
    identical names. *)
Lemma make_graph_no_ambiguity_error (e : ERD) (ctx : context) msg :
  _make_graph lookup_class_name e ctx ≠ Raise (DataJointError msg).
Proof.
  unfold _make_graph.
  destruct (node_types _) as [types|err] eqn:Htypes; simpl.
  - unfold relabel_nodes. by destruct (cyclic _ _).
  - intros H. injection H as ->. by apply node_types_error in Htypes as [?|?].
Qed.

End MakeGraphProperties.

Section IdenticalNames.

Import UserRelations Erd.

(** C6. Two shown tables whose classes resolve to one display name: the
    render graph is made, with one node for both, and the error for
    identical names is not raised. *)
Theorem make_graph_identical_names :
  qualified "lab" "a" ≠ qualified "zoo" "a" ∧
  display_name lookup_Table () (qualified "lab" "a")
  = display_name lookup_Table () (qualified "zoo" "a") ∧
  _make_graph lookup_Table two_tables ()
  = Ok {| node_type := {[ "Table" := Some Manual ]}; render_edges := ∅ |}.
Proof. split; [done|]. split; [done|]. by vm_compute. Qed.

End IdenticalNames.

(** ** Declaration order *)

Section DeclarationOrder.

Import UserRelations.

Context {V : Type}.

Lemma setitem_present k (v : V) d :
  k ∈ d.*1 → (setitem k v d).*1 = d.*1.
Proof.
  induction d as [|[k' v'] d IH]; csimpl; [by intros ?%elem_of_nil|].
  intros Hk. case_decide as Hk'; csimpl; [by subst|].
  rewrite IH; [done|]. by apply elem_of_cons in Hk as [->|?].
Qed.

Lemma setitem_fresh k (v : V) d :
  k ∉ d.*1 → (setitem k v d).*1 = d.*1 ++ [k].
Proof.
  induction d as [|[k' v'] d IH]; csimpl; [done|].
  intros Hk. apply not_elem_of_cons in Hk as [Hne Hk].
  rewrite decide_False by done. csimpl. by rewrite IH.
Qed.

Lemma members_keys (ms : list (string * V)) ns :
  NoDup ms.*1 →
  Forall (λ k, k ∉ ns.*1) ms.*1 →
  (foldl (λ ns kv, setitem kv.1 kv.2 ns) ns ms).*1 = ns.*1 ++ ms.*1.
Proof.
  revert ns. induction ms as [|[k v] ms IH]; intros ns Hnodup Hfresh; csimpl.
  - by rewrite app_nil_r.
  - apply NoDup_cons in Hnodup as [Hk Hnodup].
    apply Forall_cons in Hfresh as [Hkns Hfresh].
    rewrite IH; [|done|].
    + rewrite setitem_fresh by done. by rewrite <- app_assoc.
    + rewrite setitem_fresh by done.
      apply Forall_forall. intros k' Hk'.
      rewrite Forall_forall in Hfresh.
      intros Hin. apply elem_of_app in Hin as [?|Hin]; [by apply (Hfresh k')|].
      apply list_elem_of_singleton in Hin. by subst.
Qed.

Lemma store_keys k (v : option V) ns :
  k ∉ ns.*1 → (store k v ns).*1 = ns.*1 ++ stored k v.
Proof.
  intros Hk. destruct v as [v|]; simpl.
  - by apply setitem_fresh.
  - by rewrite app_nil_r.
Qed.

Lemma exec_body_preamble (b : class_body V) :
  exec_body b __prepare__
  = store "__classcell__" (classcell b)
      (foldl (λ ns kv, setitem kv.1 kv.2 ns) (preamble b) (members b)).
Proof. reflexivity. Qed.

Lemma preamble_keys (b : class_body V) : (preamble b).*1 = implicit_names b.
Proof.
  unfold preamble, implicit_names, __prepare__.
  by destruct (annotations b), (docstring b).
Qed.

Lemma implicit_names_interpreter (b : class_body V) k :
  k ∈ implicit_names b ++ closing_names b → k ∈ interpreter_names.
Proof.
  unfold implicit_names, closing_names, interpreter_names.
  destruct (annotations b), (docstring b), (classcell b); simpl;
    rewrite !elem_of_cons, ?elem_of_nil; tauto.
Qed.

Lemma classcell_last (b : class_body V) :
  "__classcell__" ∉ implicit_names b.
Proof.
  unfold implicit_names.
  destruct (annotations b), (docstring b); simpl;
    rewrite !not_elem_of_cons; repeat split; try done; apply not_elem_of_nil.
Qed.


End DeclarationOrder.



(** ** Layout *)

Section LayoutProperties.

Import Erd.

(** C8. Two nodes at [(0, 0)] and [(10, 5)]: the horizontal coordinates
    are normalized to [0] and [1], the vertical ones to [-2] and [-1],
    because the largest horizontal coordinate is subtracted from them. *)
Theorem layout_vertical_outside_unit_square (g : RenderGraph) :
  lowest_terms <$> _layout (λ _, two_positions) g
  = Ok [("A", (0, -2)%Q); ("B", (1, -1)%Q)].
Proof. reflexivity. Qed.

End LayoutProperties.

(** ** Building a diagram *)

Section Construction.

Import Erd.

(** Without a connection on the source or on its schema, [__init__] ends
    as the access to [source[0]] does. *)
Lemma init_without_connection (o : Object) :
  connection o = Absent →
  schema o = Absent ∨ (∃ s, schema o = Value s ∧ schema_connection s = Absent) →
  __init__ (FromObject o)
  = match repr_item0 o with
    | Ok r => Raise (DataJointError ("Could not find database connection in " +:+ r))
    | Raise err => Raise err
    end.
Proof.
  intros Hc Hs. unfold __init__, find_connection. rewrite Hc.
  destruct Hs as [->|([sc sd] & -> & Hsc)]; simpl in *; [|subst sc];
    by destruct (repr_item0 o).
Qed.

(** C9. A source without a connection, without a schema and without
    items: [__init__] raises [TypeError], from [source[0]], and not the
    error that says that no connection was found. *)
Theorem init_plain_object_type_error :
  connection plain_object = Absent ∧
  schema plain_object = Absent ∧
  __init__ (FromObject plain_object) = Raise TypeError.
Proof. done. Qed.

(** C10. [from_sequence] on the empty sequence raises the [TypeError] of
    [reduce]: a diagram comes only from a sequence that is not empty. *)
Theorem from_sequence_empty :
  from_sequence [] = Raise TypeError ∧
  (∀ sequence e, from_sequence sequence = Ok e → sequence ≠ []).
Proof.
  split; [done|]. intros sequence e Hok ->. discriminate.
Qed.

Lemma from_sequence_empty_witness :
  [FromObject (table_object "a"); FromObject (table_object "c")] ≠ [].
Proof.
  destruct from_sequence_empty as [_ Hnonempty].
  apply (Hnonempty _ (MkERD chain {[ qualified "lab" "a"; qualified "lab" "c" ]})).
  by vm_compute.
Defined.

(** The diagram of a sequence shows what the diagrams of its items show. *)
Lemma reduce_from_shown rest x e :
  reduce_from x rest = Ok e →
  graph e = graph x ∧
  ∀ n, n ∈ nodes_to_show e ↔
       n ∈ nodes_to_show x ∨
       ∃ s y, s ∈ rest ∧ __init__ s = Ok y ∧ n ∈ nodes_to_show y.
Proof.
  revert x. induction rest as [|s rest IH]; intros x; simpl.
  - intros [= <-]. split; [done|]. intros n. split; [by left|].
    intros [?|(s & y & Hs%elem_of_nil & _)]; done.
  - destruct (__init__ s) as [y|err] eqn:Hy; simpl; [|done].
    intros [Hg Hshown]%IH. simpl in *. split; [done|].
    intros n. rewrite Hshown, elem_of_union. split.
    + intros [[?|?]|(s' & y' & Hs' & Hy' & Hn)].
      * by left.
      * right. exists s, y. split; [by left|done].
      * right. exists s', y'. split; [by right|done].
    + intros [?|(s' & y' & Hs' & Hy' & Hn)]; [by left; left|].
      apply elem_of_cons in Hs' as [->|Hs'].
      * left. right. congruence.
      * right. by exists s', y'.
Qed.

Lemma from_sequence_shown s rest e :
  from_sequence (s :: rest) = Ok e →
  ∀ n, n ∈ nodes_to_show e ↔
       ∃ s' y, s' ∈ s :: rest ∧ __init__ s' = Ok y ∧ n ∈ nodes_to_show y.
Proof.
  simpl. destruct (__init__ s) as [x|err] eqn:Hx; simpl; [|done].
  intros [_ Hshown]%reduce_from_shown n. rewrite Hshown. split.
  - intros [Hn|(s' & y & Hs' & Hy & Hn)].
    + exists s, x. split; [by left|done].
    + exists s', y. split; [by right|done].
  - intros (s' & y & Hs' & Hy & Hn). apply elem_of_cons in Hs' as [->|Hs'].
    + left. congruence.
    + right. by exists s', y.
Qed.

End Construction.

(** ** Expansion reaches the nodes within [n] edges *)

Section Reach.

Import Erd.

Lemma within_mono G start k v : within G start k v → within G start (S k) v.
Proof.
  induction 1 as [k v Hv|k u v Hu IH He]; [by apply within_start|].
  by apply within_edge with u.
Qed.

Lemma within_le G start k k' v :
  k ≤ k' → within G start k v → within G start k' v.
Proof.
  intros Hle Hk. induction Hle as [|k' Hle IH]; [done|]. by apply within_mono.
Qed.

Lemma within_union G start1 start2 k v :
  within G (start1 ∪ start2) k v ↔ within G start1 k v ∨ within G start2 k v.
Proof.
  split.
  - induction 1 as [k v Hv|k u v Hu IH He].
    + apply elem_of_union in Hv as [?|?]; [left|right]; by apply within_start.
    + destruct IH; [left|right]; by apply within_edge with u.
  - intros [H|H]; (induction H as [k v Hv|k u v Hu IH He];
      [apply within_start; set_solver|by apply within_edge with u]).
Qed.

Lemma expand_fixed G hops shown :
  node_boundary G shown = ∅ → expand G hops shown = shown.
Proof. intros Hnew. destruct hops; simpl; [done|]. by rewrite decide_True. Qed.

(** The [break] changes nothing: the loop is [hops] hops. *)
Lemma expand_iter G hops shown :
  expand G hops shown = Nat.iter hops (hop (node_boundary G)) shown.
Proof.
  revert shown. induction hops as [|hops IH]; intros shown; [done|].
  rewrite Nat.iter_succ_r. simpl. case_decide as Hnew.
  - unfold hop at 2. rewrite Hnew, (right_id_L ∅ (∪)).
    by rewrite <- IH, expand_fixed.
  - by rewrite IH.
Qed.

Lemma iter_hop_within G hops shown v :
  v ∈ Nat.iter hops (hop (downstream_boundary G)) shown ↔ within G shown hops v.
Proof.
  revert v. induction hops as [|hops IH]; intros v; simpl.
  - split; [by apply within_start|]. by inversion 1.
  - unfold hop at 1. rewrite elem_of_union, elem_of_downstream_boundary. split.
    + intros [Hv|[_ (u & Hu & He)]].
      * by apply within_mono, IH.
      * apply within_edge with u; [by apply IH|done].
    + inversion 1 as [k' v' Hv|k' u v' Hu He]; subst.
      * left. apply IH. by apply within_start.
      * destruct (decide (v ∈ Nat.iter hops (hop (downstream_boundary G)) shown));
          [by left|right].
        split; [done|]. exists u. split; [by apply IH|done].
Qed.

Lemma iter_hop_ext (f g : gset string → gset string) hops shown :
  (∀ S, f S = g S) →
  Nat.iter hops (hop f) shown = Nat.iter hops (hop g) shown.
Proof.
  intros Hfg. induction hops as [|hops IH]; simpl; [done|].
  unfold hop at 1 3. by rewrite IH, Hfg.
Qed.

Lemma expand_within G hops shown v :
  wf G → v ∈ expand G hops shown ↔ within G shown hops v.
Proof.
  intros Hwf. rewrite expand_iter, <- iter_hop_within.
  rewrite (iter_hop_ext (node_boundary G) (downstream_boundary G)); [done|].
  intros S. by apply node_boundary_downstream.
Qed.

(** X1. With a non-negative [n], [e + n] shows exactly the nodes that a
    path of at most [n] edges reaches from a shown node, and [e - n] the
    nodes from which such a path reaches a shown node. *)
Theorem expansion_within (e : ERD) (n : Z) :
  wf (graph e) →
  (∃ e', __add__ e (OpInt n) = Ok e' ∧
         ∀ v, v ∈ nodes_to_show e' ↔
              within (graph e) (nodes_to_show e) (Z.to_nat n) v) ∧
  (∃ e', __sub__ e (OpInt n) = Ok e' ∧
         ∀ v, v ∈ nodes_to_show e' ↔
              within (reverse (graph e)) (nodes_to_show e) (Z.to_nat n) v).
Proof.
  intros Hwf. split; eexists; (split; [reflexivity|]); simpl; intros v.
  - by apply expand_within.
  - by apply expand_within, wf_reverse.
Qed.

Lemma expansion_within_witness :
  (∃ e', __add__ (chain_at "a") (OpInt 2) = Ok e' ∧
         ∀ v, v ∈ nodes_to_show e' ↔
              within chain {[ qualified "lab" "a" ]} 2 v) ∧
  (∃ e', __sub__ (chain_at "a") (OpInt 2) = Ok e' ∧
         ∀ v, v ∈ nodes_to_show e' ↔
              within (reverse chain) {[ qualified "lab" "a" ]} 2 v).
Proof. exact (expansion_within (chain_at "a") 2 chain_wf). Defined.

Lemma expand_add G a b shown :
  expand G (a + b) shown = expand G b (expand G a shown).
Proof.
  revert shown. induction a as [|a IH]; intros shown; simpl; [done|].
  case_decide as Hnew; [|by apply IH]. by rewrite expand_fixed.
Qed.

(** X2. Hops add up: for non-negative [a] and [b], [(e + a) + b] is
    [e + (a + b)], and likewise for [-]. *)
Theorem expansion_adds_up (e : ERD) (a b : Z) :
  (0 ≤ a)%Z → (0 ≤ b)%Z →
  (__add__ e (OpInt a) ≫= λ e', __add__ e' (OpInt b))
  = __add__ e (OpInt (a + b)) ∧
  (__sub__ e (OpInt a) ≫= λ e', __sub__ e' (OpInt b))
  = __sub__ e (OpInt (a + b)).
Proof.
  intros Ha Hb. simpl. rewrite Z2Nat.inj_add by done.
  by rewrite !expand_add.
Qed.

Lemma expansion_adds_up_witness :
  (__add__ (chain_at "a") (OpInt 1) ≫= λ e', __add__ e' (OpInt 1))
  = __add__ (chain_at "a") (OpInt (1 + 1)) ∧
  (__sub__ (chain_at "c") (OpInt 1) ≫= λ e', __sub__ e' (OpInt 1))
  = __sub__ (chain_at "c") (OpInt (1 + 1)).
Proof.
  split.
  - apply (expansion_adds_up (chain_at "a") 1 1); lia.
  - apply (expansion_adds_up (chain_at "c") 1 1); lia.
Defined.

(** X3. Expansion goes through union: over one graph, the nodes that
    [(e1 + e2) + n] shows are those of [e1 + n] and those of [e2 + n]. *)
Theorem expansion_of_union (e1 e2 : ERD) (n : Z) :
  wf (graph e1) → graph e2 = graph e1 →
  ∃ e12 e1' e2' e',
    __add__ e1 (OpERD e2) = Ok e12 ∧ __add__ e12 (OpInt n) = Ok e' ∧
    __add__ e1 (OpInt n) = Ok e1' ∧ __add__ e2 (OpInt n) = Ok e2' ∧
    nodes_to_show e' = nodes_to_show e1' ∪ nodes_to_show e2'.
Proof.
  intros Hwf Hg. do 4 eexists. repeat (split; [reflexivity|]). simpl.
  apply set_eq. intros v. rewrite elem_of_union, Hg.
  rewrite !expand_within by done. apply within_union.
Qed.

Lemma expansion_of_union_witness :
  ∃ e12 e1' e2' e',
    __add__ (chain_at "a") (OpERD (chain_at "b")) = Ok e12 ∧
    __add__ e12 (OpInt 1) = Ok e' ∧
    __add__ (chain_at "a") (OpInt 1) = Ok e1' ∧
    __add__ (chain_at "b") (OpInt 1) = Ok e2' ∧
    nodes_to_show e' = nodes_to_show e1' ∪ nodes_to_show e2'.
Proof.
  apply (expansion_of_union (chain_at "a") (chain_at "b") 1);
    [exact chain_wf|reflexivity].
Defined.

Lemma downstream_boundary_in_graph G shown v :
  wf G → v ∈ downstream_boundary G shown → v ∈ nodes G ∧ v ∉ shown.
Proof.
  intros Hwf [Hv (u & Hu & He)]%elem_of_downstream_boundary.
  by destruct (wf_edge G u v).
Qed.

(** Every hop that finds something adds a node of the graph. *)
Lemma hops_grow G shown k :
  wf G →
  (∀ i, i < k →
        downstream_boundary G (Nat.iter i (hop (downstream_boundary G)) shown) ≠ ∅) →
  Nat.iter k (hop (downstream_boundary G)) shown ∖ shown ⊆ nodes G ∧
  k ≤ size (Nat.iter k (hop (downstream_boundary G)) shown ∖ shown).
Proof.
  intros Hwf. induction k as [|k IH]; intros Hsteps; simpl.
  - split; [|lia]. intros v Hv. by apply elem_of_difference in Hv as [? ?].
  - destruct IH as [Hsub Hsize]; [intros i Hi; apply Hsteps; lia|].
    set (A := Nat.iter k (hop (downstream_boundary G)) shown) in *.
    assert (shown ⊆ A) as HA.
    { unfold A. clear. induction k as [|k IH]; simpl; [done|].
      unfold hop at 1. by apply union_subseteq_l'. }
    assert (downstream_boundary G A ≠ ∅) as Hnew by (apply Hsteps; lia).
    unfold hop at 1. split.
    + intros v Hv. apply elem_of_difference in Hv as [Hv Hnot].
      apply elem_of_union in Hv as [Hv|Hv].
      * apply Hsub. by apply elem_of_difference.
      * by apply downstream_boundary_in_graph in Hv as [? _].
    + change (hop (downstream_boundary G) A)
        with (A ∪ downstream_boundary G A).
      assert ((A ∪ downstream_boundary G A) ∖ shown
              = (A ∖ shown) ∪ downstream_boundary G A) as ->.
      { apply set_eq. intros v.
        rewrite elem_of_union, !elem_of_difference, elem_of_union. split.
        - intros [[?|Hb] ?]; [by left|by right].
        - intros [[? ?]|Hb]; [by split; [left|]|].
          split; [by right|]. intros Hs.
          apply downstream_boundary_in_graph in Hb as [_ Hb]; [|done].
          by apply Hb, HA. }
      rewrite size_union.
      * apply set_choose_L in Hnew as [v Hv].
        assert (size (downstream_boundary G A) ≠ 0); [|lia].
        apply size_non_empty_iff. intros Hempty.
        apply Hempty in Hv. by apply not_elem_of_empty in Hv.
      * intros v Hv Hb. apply elem_of_difference in Hv as [Hv _].
        by apply downstream_boundary_in_graph in Hb as [_ ?].
Qed.

(** After as many hops as the graph has nodes, nothing is left to add. *)
Lemma expand_saturated G hops shown :
  wf G → size (nodes G) ≤ hops →
  downstream_boundary G (expand G hops shown) = ∅.
Proof.
  intros Hwf Hhops.
  destruct (expand_hops G (downstream_boundary G) hops shown)
    as (k & Hk & Heq & Hsteps & Hstop).
  { intros S. by apply node_boundary_downstream. }
  destruct (decide (k < hops)) as [Hlt|Hge]; [by apply Hstop|].
  destruct (hops_grow G shown k Hwf Hsteps) as [Hsub Hsize].
  rewrite Heq. set (A := Nat.iter k (hop (downstream_boundary G)) shown) in *.
  assert (A ∖ shown = nodes G) as Hall.
  { apply set_subseteq_size_eq; [done|]. lia. }
  apply set_eq. intros v. split; [|by intros ?%not_elem_of_empty].
  intros [Hv Hnot]%downstream_boundary_in_graph; [|done].
  rewrite <- Hall in Hv. by apply elem_of_difference in Hv as [? _].
Qed.

(** X4. With [n] at least the number of nodes of the graph, [e + n] shows
    every node that some path reaches from a shown node, and a further
    expansion of it changes nothing. *)
Theorem expansion_saturates (e : ERD) (n : Z) :
  wf (graph e) → (Z.of_nat (size (nodes (graph e))) ≤ n)%Z →
  ∃ e', __add__ e (OpInt n) = Ok e' ∧
        (∀ v, v ∈ nodes_to_show e' ↔
              ∃ k, within (graph e) (nodes_to_show e) k v) ∧
        ∀ m, __add__ e' (OpInt m) = Ok e'.
Proof.
  intros Hwf Hn. eexists. split; [reflexivity|]. simpl.
  assert (downstream_boundary (graph e)
            (expand (graph e) (Z.to_nat n) (nodes_to_show e)) = ∅) as Hclosed.
  { apply expand_saturated; [done|lia]. }
  split.
  - intros v. split.
    + intros Hv. exists (Z.to_nat n). by apply expand_within.
    + intros [k Hk]. induction Hk as [k v Hv|k u v Hu IH He].
      * apply expand_within; [done|]. by apply within_start.
      * destruct (decide (v ∈ expand (graph e) (Z.to_nat n) (nodes_to_show e)))
          as [|Hnot]; [done|].
        assert (v ∈ downstream_boundary (graph e)
                  (expand (graph e) (Z.to_nat n) (nodes_to_show e))) as Hb.
        { apply elem_of_downstream_boundary. split; [done|]. by exists u. }
        rewrite Hclosed in Hb. by apply not_elem_of_empty in Hb.
  - intros m. rewrite expand_fixed; [done|].
    by rewrite node_boundary_downstream.
Qed.

Lemma expansion_saturates_witness :
  ∃ e', __add__ (chain_at "a") (OpInt 3) = Ok e' ∧
        (∀ v, v ∈ nodes_to_show e' ↔
              ∃ k, within chain {[ qualified "lab" "a" ]} k v) ∧
        ∀ m, __add__ e' (OpInt m) = Ok e'.
Proof.
  apply (expansion_saturates (chain_at "a") 3); [exact chain_wf|].
  vm_compute. discriminate.
Defined.

End Reach.

(** ** The strings of the tier patterns *)

Section TierLanguages.

Import Re Names UserRelations Erd.

Lemma compile_tier t : compile (tier_regexp t) = Some (tier_re t).
Proof. by destruct t. Qed.

Lemma compile_base : compile _base_regexp = Some base_re.
Proof. done. Qed.

Lemma string_app_nil_l s : EmptyString +:+ s = s.
Proof. reflexivity. Qed.

Lemma string_app_nil_r s : s +:+ EmptyString = s.
Proof. induction s as [|a s IH]; [done|]. by rewrite string_app_cons, IH. Qed.

Lemma lang_cat_eps r s : lang (Cat r Eps) s ↔ lang r s.
Proof.
  split.
  - inversion 1 as [| | |? ? s1 s2 H1 H2| | | |]; subst.
    inversion H2; subst. by rewrite string_app_nil_r.
  - intros H. rewrite <- (string_app_nil_r s). apply lang_cat; [done|constructor].
Qed.

Lemma lang_prefixed pre r s :
  lang (prefixed pre r) s ↔ ∃ b, s = pre +:+ b ∧ lang r b.
Proof.
  revert s. induction pre as [|c pre IH]; intros s; simpl.
  - split; [by exists s|]. by intros (b & -> & ?).
  - split.
    + inversion 1 as [| | |? ? s1 s2 H1 H2| | | |]; subst.
      inversion H1; subst. apply IH in H2 as (b & -> & Hb). by exists b.
    + intros (b & -> & Hb). rewrite string_app_cons.
      apply (lang_cat _ _ (String c EmptyString)); [constructor|].
      apply IH. by exists b.
Qed.

Lemma lang_top pre s :
  lang (top_re pre) s ↔ ∃ b, s = pre +:+ b ∧ lang base_re b.
Proof. unfold top_re. by rewrite lang_cat_eps, lang_prefixed. Qed.

Lemma lang_part s :
  lang part_re s ↔
  ∃ m b, s = m +:+ "__" +:+ b ∧ lang masters_re m ∧ lang base_re b.
Proof.
  unfold part_re. split.
  - inversion 1 as [| | |? ? s1 s2 H1 H2| | | |]; subst.
    rewrite !lang_cat_eps in H1.
    apply (lang_prefixed "__" (Cat base_re Eps)) in H2 as (b & -> & Hb).
    rewrite lang_cat_eps in Hb. by exists s1, b.
  - intros (m & b & -> & Hm & Hb). apply lang_cat.
    + by rewrite !lang_cat_eps.
    + apply (lang_prefixed "__" (Cat base_re Eps)). exists b.
      split; [done|]. by rewrite lang_cat_eps.
Qed.

Lemma lang_masters m :
  lang masters_re m ↔
  lang (top_re Manual_prefix) m ∨ lang (top_re Lookup_prefix) m ∨
  lang (top_re Imported_prefix) m ∨ lang (top_re Computed_prefix) m.
Proof.
  unfold masters_re. split.
  - inversion 1 as [| | | |? ? ? H1|? ? ? H1| |]; subst; [by left|right].
    inversion H1 as [| | | |? ? ? H2|? ? ? H2| |]; subst; [by left|right].
    inversion H2 as [| | | |? ? ? H3|? ? ? H3| |]; subst; [by left|by right].
  - intros [?|[?|[?|?]]].
    + by apply lang_alt_l.
    + by apply lang_alt_r, lang_alt_l.
    + by apply lang_alt_r, lang_alt_r, lang_alt_l.
    + by apply lang_alt_r, lang_alt_r, lang_alt_r.
Qed.

(** [fullmatch] against a tier's pattern is membership in its language. *)
Lemma fully_matches_lang segment t :
  fully_matches segment t = true ↔ lang (tier_re t) segment.
Proof.
  unfold fully_matches, fullmatch. rewrite compile_tier, <- matches_lang.
  by destruct (matches _ _).
Qed.

(** *** Base names pass the one-pass reading *)

Lemma lower_not_underscore c : is_lower c = true → c ≠ "_"%char.
Proof. by intros Hc ->. Qed.

Lemma alnum_not_underscore c : is_lower c || is_digit c = true → c ≠ "_"%char.
Proof. by intros Hc ->. Qed.

Lemma lang_lower_case s :
  lang lower_case s → ∃ c, s = String c EmptyString ∧ is_lower c = true.
Proof.
  inversion 1 as [| |c ? Hc| | | | |]; subst. exists c. split; [done|].
  unfold in_class, in_range in Hc. simpl in Hc. by rewrite orb_false_r in Hc.
Qed.

Lemma lang_lower_or_digit s :
  lang lower_or_digit s →
  ∃ c, s = String c EmptyString ∧ is_lower c || is_digit c = true.
Proof.
  inversion 1 as [| |c ? Hc| | | | |]; subst. exists c. split; [done|].
  unfold in_class, in_range in Hc. simpl in Hc. rewrite orb_false_r in Hc.
  by rewrite orb_comm.
Qed.

Lemma scan_letter s t :
  lang lower_case s → scan false t = true →
  scan true (s +:+ t) = true ∧ scan false (s +:+ t) = true.
Proof.
  intros (c & -> & Hc)%lang_lower_case Ht.
  rewrite string_app_cons, string_app_nil_l. simpl.
  rewrite decide_False by by apply lower_not_underscore.
  by rewrite Hc, Ht.
Qed.

Lemma scan_alnum s t :
  lang lower_or_digit s → scan false t = true → scan false (s +:+ t) = true.
Proof.
  intros (c & -> & Hc)%lang_lower_or_digit Ht.
  rewrite string_app_cons, string_app_nil_l. simpl.
  rewrite decide_False by by apply alnum_not_underscore.
  by rewrite Hc, Ht.
Qed.

(** What holds after one round of a repetition holds after all of them. *)
Lemma scan_star r opening s t :
  (∀ s t, lang r s → scan opening t = true → scan opening (s +:+ t) = true) →
  lang (Star r) s → scan opening t = true → scan opening (s +:+ t) = true.
Proof.
  intros Hround Hs Ht. remember (Star r) as r' eqn:Hr.
  induction Hs as [| | | | | | |r0 s1 s2 H1 _ H2 IH2]; try discriminate.
  - done.
  - injection Hr as ->. rewrite string_app_assoc. apply Hround; [done|].
    by apply IH2.
Qed.

Lemma scan_word k s t :
  lang (word k) s →
  (∀ sk, lang k sk → scan false (sk +:+ t) = true) →
  scan true (s +:+ t) = true.
Proof.
  unfold word. intros Hs Hk.
  inversion Hs as [| | |? ? s12 s34 H12 H34| | | |]; subst.
  inversion H12 as [| | |? ? s1 s2 H1 H2| | | |]; subst.
  inversion H34 as [| | |? ? s3 s4 H3 H4| | | |]; subst.
  rewrite !string_app_assoc. apply scan_letter; [done|].
  apply (scan_star lower_case); [|done|].
  { intros. by apply scan_letter. }
  apply (scan_star lower_or_digit); [|done|].
  { intros. by apply scan_alnum. }
  by apply Hk.
Qed.

Lemma scan_base s t :
  lang base_re s → scan false t = true → scan true (s +:+ t) = true.
Proof.
  unfold base_re. intros Hs Ht. apply (scan_word _ _ _ Hs).
  intros sk Hsk. rewrite lang_cat_eps in Hsk.
  apply (scan_star (Cat (Chr "_") (word Eps))); [|done..].
  clear. intros s t Hs Ht.
  apply (lang_prefixed "_" (word Eps)) in Hs as (w & -> & Hw).
  rewrite string_app_assoc. change ("_" +:+ w +:+ t) with (String "_" (w +:+ t)).
  simpl. apply (scan_word _ _ _ Hw). intros sk Hsk. by inversion Hsk; subst.
Qed.

Lemma lang_base_scan s : lang base_re s → scan true s = true.
Proof.
  intros Hs. rewrite <- (string_app_nil_r s). by apply scan_base.
Qed.

Lemma lang_tier_shape t s : lang (tier_re t) s → tier_shape t s.
Proof.
  assert (∀ pre m, lang (top_re pre) m → top_shape pre m) as Htop.
  { intros pre m (b & -> & Hb%lang_base_scan)%lang_top. by exists b. }
  destruct t; simpl; try apply Htop.
  intros (m & b & -> & Hm & Hb%lang_base_scan)%lang_part.
  exists m, b. split; [done|]. split; [done|].
  apply lang_masters in Hm as [?|[?|[?|?]]]; auto 6.
Qed.

(** *** No segment has the shape of two tiers *)

Lemma scan_opening s :
  scan true s = true → ∃ c s', s = String c s' ∧ is_lower c = true.
Proof.
  destruct s as [|c s]; simpl; [done|].
  intros [Hc _]%andb_true_iff. by exists c, s.
Qed.

Lemma scan_no_double_underscore opening x y :
  scan opening (x +:+ "__" +:+ y) = false.
Proof.
  revert opening. induction x as [|c x IH]; intros opening.
  - rewrite string_app_nil_l. by destruct opening.
  - rewrite string_app_cons. simpl. rewrite !IH.
    destruct opening; [by rewrite andb_false_r|].
    case_decide; [done|]. by rewrite andb_false_r.
Qed.

Lemma scan_no_double_underscore_cons opening x y :
  scan opening (x +:+ String "_" (String "_" y)) = false.
Proof. exact (scan_no_double_underscore opening x y). Qed.

Lemma scan_no_backtick opening s :
  scan opening s = true → Str.contains "`" s = false.
Proof.
  revert opening. induction s as [|c s IH]; intros opening; simpl; [done|].
  destruct opening.
  - intros [Hc Hs]%andb_true_iff. rewrite (IH _ Hs), orb_false_r.
    apply bool_decide_eq_false. by intros ->.
  - case_decide as Hu.
    + intros Hs. rewrite (IH _ Hs), orb_false_r. subst c. done.
    + intros [Hc Hs]%andb_true_iff. rewrite (IH _ Hs), orb_false_r.
      apply bool_decide_eq_false. by intros ->.
Qed.

Lemma top_shape_head t pre s :
  _prefix t = Some pre → top_shape pre s → tier_of_head s = t.
Proof.
  intros Hpre (b & -> & (c & b' & -> & Hc)%scan_opening).
  destruct t; simpl in Hpre; try discriminate; injection Hpre as <-;
    unfold Manual_prefix, Lookup_prefix, Imported_prefix, Computed_prefix;
    repeat rewrite ?string_app_cons, ?string_app_nil_l; unfold tier_of_head.
  - rewrite !decide_False; [done|by intros ->..].
  - by rewrite decide_True.
  - rewrite decide_False, decide_True, decide_False; [done|by intros ->|done..].
  - rewrite decide_False, !decide_True; done.
Qed.

Lemma top_shape_cons pre s :
  pre ∈ [Manual_prefix; Lookup_prefix; Imported_prefix; Computed_prefix] →
  top_shape pre s →
  ∃ c s', s = String c s' ∧
    ((pre = Manual_prefix ∧ is_lower c = true) ∨
     (pre = Lookup_prefix ∧ c = "#"%char) ∨
     (pre = Imported_prefix ∧ c = "_"%char ∧ scan true s' = true) ∨
     (pre = Computed_prefix ∧ c = "_"%char ∧
      ∃ b, s' = String "_" b ∧ scan true b = true)).
Proof.
  intros Hpre (b & -> & Hb). rewrite !elem_of_cons, elem_of_nil in Hpre.
  destruct Hpre as [->|[->|[->|[->|[]]]]];
    unfold Manual_prefix, Lookup_prefix, Imported_prefix, Computed_prefix at 1;
    repeat rewrite ?string_app_cons, ?string_app_nil_l.
  - apply scan_opening in Hb as (c & b' & -> & Hc). exists c, b'. auto.
  - eexists _, _. split; [done|]. auto.
  - eexists _, _. split; [done|]. auto 6.
  - eexists _, _. split; [done|]. do 3 right. split; [done|]. split; [done|].
    by exists b.
Qed.

Lemma part_shape_not_top pre s :
  pre ∈ [Manual_prefix; Lookup_prefix; Imported_prefix; Computed_prefix] →
  tier_shape Part s → top_shape pre s → False.
Proof.
  intros Hpre (m & b & -> & Hb & Hm) (b0 & Heq & Hb0).
  assert (∃ pm, pm ∈ [Manual_prefix; Lookup_prefix; Imported_prefix;
                      Computed_prefix] ∧ top_shape pm m) as (pm & Hpm & Hm').
  { destruct Hm as [?|[?|[?|?]]]; eexists; (split; [|done]);
      (rewrite !elem_of_cons; auto 6). }
  clear Hm. apply top_shape_cons in Hm' as (c & m' & -> & Hc); [|done].
  rewrite string_app_cons in Heq.
  rewrite !elem_of_cons, elem_of_nil in Hpre.
  destruct Hpre as [->|[->|[->|[->|[]]]]];
    unfold Manual_prefix, Lookup_prefix, Imported_prefix, Computed_prefix in Heq;
    repeat rewrite ?string_app_cons, ?string_app_nil_l in Heq.
  - subst b0. change (scan true (String c m' +:+ "__" +:+ b) = true) in Hb0.
    by rewrite scan_no_double_underscore in Hb0.
  - injection Heq as _ <-. by rewrite scan_no_double_underscore_cons in Hb0.
  - injection Heq as _ <-. by rewrite scan_no_double_underscore_cons in Hb0.
  - injection Heq as -> Heq.
    destruct Hc as [[_ Hc]|[[_ Hc]|[(_ & _ & Hm')|(_ & _ & bm & -> & Hbm)]]];
      [done|done| |].
    + apply scan_opening in Hm' as (c' & bm & -> & Hc').
      rewrite string_app_cons in Heq. by injection Heq as -> _.
    + rewrite string_app_cons in Heq. injection Heq as <-.
      by rewrite scan_no_double_underscore_cons in Hb0.
Qed.

Lemma tier_shape_unique t1 t2 s : tier_shape t1 s → tier_shape t2 s → t1 = t2.
Proof.
  assert (∀ t, t ≠ Part → tier_shape t s →
            ∃ pre, _prefix t = Some pre ∧ top_shape pre s ∧
                   pre ∈ [Manual_prefix; Lookup_prefix; Imported_prefix;
                          Computed_prefix]) as Htop.
  { intros t Ht Hs. destruct t; [..|done]; eexists;
      (split; [done|]); (split; [done|]);
      (rewrite !elem_of_cons; auto 6). }
  intros H1 H2.
  destruct (decide (t1 = Part)) as [->|Hn1], (decide (t2 = Part)) as [->|Hn2].
  - done.
  - destruct (Htop t2 Hn2 H2) as (pre & _ & Hs & Hpre).
    by destruct (part_shape_not_top pre s).
  - destruct (Htop t1 Hn1 H1) as (pre & _ & Hs & Hpre).
    by destruct (part_shape_not_top pre s).
  - destruct (Htop t1 Hn1 H1) as (pre1 & Hp1 & Hs1 & _).
    destruct (Htop t2 Hn2 H2) as (pre2 & Hp2 & Hs2 & _).
    rewrite <- (top_shape_head t1 pre1 s), <- (top_shape_head t2 pre2 s); done.
Qed.

Lemma fully_matches_shape segment t :
  fully_matches segment t = true → tier_shape t segment.
Proof. by intros H%fully_matches_lang%lang_tier_shape. Qed.

Lemma fully_matches_unique segment t1 t2 :
  fully_matches segment t1 = true → fully_matches segment t2 = true → t1 = t2.
Proof.
  intros H1%fully_matches_shape H2%fully_matches_shape.
  by apply (tier_shape_unique t1 t2 segment).
Qed.

(** X5. No table-name segment fully matches the patterns of two tiers. *)
Theorem tier_patterns_disjoint segment t1 t2 :
  fully_matches segment t1 = true → fully_matches segment t2 = true → t1 = t2.
Proof.
  intros H1 H2. apply (tier_shape_unique t1 t2 segment);
    by apply lang_tier_shape, fully_matches_lang.
Qed.

Lemma tier_patterns_disjoint_witness :
  tier_of_head "_mytable" = Imported.
Proof.
  apply (tier_patterns_disjoint "_mytable"); reflexivity.
Defined.

Lemma find_the_only {A} (f : A → bool) l x :
  f x = true → x ∈ l → (∀ y, f y = true → y = x) → List.find f l = Some x.
Proof.
  intros Hx Hin Honly. induction l as [|y l IH]; simpl.
  - by apply elem_of_nil in Hin.
  - destruct (f y) eqn:Hy; [by rewrite (Honly y Hy)|].
    apply IH. apply elem_of_cons in Hin as [->|?]; [congruence|done].
Qed.

Lemma find_over_all {A} (f : A → bool) l1 l2 :
  (∀ x y, f x = true → f y = true → x = y) →
  (∀ x, x ∈ l1) → (∀ x, x ∈ l2) →
  List.find f l1 = List.find f l2.
Proof.
  intros Honly H1 H2. destruct (List.find f l2) as [x|] eqn:Hfind.
  - apply List.find_some in Hfind as [_ Hx].
    apply find_the_only; [done..|]. intros y Hy. by apply Honly.
  - destruct (List.find f l1) as [x|] eqn:Hfind1; [|done].
    apply List.find_some in Hfind1 as [_ Hx].
    rewrite (List.find_none _ _ Hfind x) in Hx; [done|].
    apply list_elem_of_In, H2.
Qed.

(** X6. The order in which the tier classes are tried does not matter:
    with the five classes in any order, with or without repeats, the first
    match is the tier that [_get_tier] returns. *)
Theorem get_tier_any_order classes db table :
  (∀ t, t ∈ classes) →
  Str.contains "`" table = false →
  next_tier classes (qualified db table) = _get_tier (qualified db table).
Proof.
  intros Hall Htable. unfold _get_tier.
  rewrite !(next_tier_find _ _ table) by by apply qualified_segment.
  f_equal. apply find_over_all; [|done|].
  - intros t1 t2. apply fully_matches_unique.
  - intros t. unfold user_relation_classes. rewrite !elem_of_cons.
    destruct t; auto 6.
Qed.

Lemma get_tier_any_order_witness :
  next_tier [Part; Imported; Manual; Computed; Lookup]
    (qualified "lab" "_mytable")
  = _get_tier (qualified "lab" "_mytable").
Proof.
  apply get_tier_any_order; [|reflexivity].
  intros t. rewrite !elem_of_cons. destruct t; auto 6.
Defined.

(** *** From the name of a class to its tier *)

Lemma fullmatch_base_lang s :
  fullmatch _base_regexp s = Ok true ↔ lang base_re s.
Proof.
  unfold fullmatch. rewrite compile_base, <- matches_lang. split.
  - by intros [= ->].
  - by intros ->.
Qed.

Lemma top_name_lang t pre b :
  _prefix t = Some pre → lang base_re b →
  lang (tier_re t) (pre +:+ b) ∧ Str.contains "`" (pre +:+ b) = false.
Proof.
  intros Hpre Hb. split.
  - destruct t; simpl in Hpre; try discriminate; injection Hpre as <-;
      apply lang_top; by exists b.
  - rewrite contains_app, (scan_no_backtick true b) by by apply lang_base_scan.
    by destruct t; simpl in Hpre; try discriminate; injection Hpre as <-.
Qed.

Section Classes.

Variable from_camel_case : string → string.

(** The table name of a well-named class is in the language of the
    pattern of its tier, and has no backtick. *)
Lemma table_name_lang c :
  well_named from_camel_case c →
  ∃ tn, table_name from_camel_case c = Ok (Some tn) ∧
        lang (tier_re (cls_tier c)) tn ∧ Str.contains "`" tn = false.
Proof.
  intros [Hname Hpart]. apply fullmatch_base_lang in Hname.
  destruct (decide (cls_tier c = Part)) as [Ht|Ht].
  - destruct (Hpart Ht) as (m & Hm & Htm & Hmname).
    apply fullmatch_base_lang in Hmname.
    destruct (table_name_top_tier from_camel_case m Htm) as (pre & Hpre & Htn).
    destruct (top_name_lang (cls_tier m) pre _ Hpre Hmname) as [Hlang Hclean].
    destruct c as [t name db master]. simpl in *. subst t master.
    rewrite Htn. eexists. split; [reflexivity|]. split.
    + apply lang_part. eexists _, _. split; [reflexivity|]. split; [|done].
      apply lang_masters. destruct (cls_tier m); auto; done.
    + rewrite contains_app, Hclean, contains_app. simpl.
      by apply (scan_no_backtick true), lang_base_scan.
  - destruct (table_name_top_tier from_camel_case c Ht) as (pre & Hpre & Htn).
    rewrite Htn. eexists. split; [reflexivity|]. by apply top_name_lang.
Qed.

(** X7. Naming and classification agree: the full table name of a
    well-named class with a database is classified as the tier of the class
    (for a Part class: one whose master is of a top-level tier). *)
Theorem get_tier_of_full_table_name c db :
  well_named from_camel_case c →
  UserRelations.database c = Some db →
  ∃ name, UserRelations.full_table_name from_camel_case c = Ok (Some name) ∧
          _get_tier name = Ok (Some (cls_tier c)).
Proof.
  intros Hc Hdb. destruct (table_name_lang c Hc) as (tn & Htn & Hlang & Hclean).
  exists (qualified db tn). split.
  - unfold UserRelations.full_table_name. rewrite Hdb, !Htn.
    by destruct (cls_tier c).
  - unfold _get_tier. rewrite (next_tier_find _ _ tn) by by apply qualified_segment.
    f_equal. apply find_the_only.
    + by apply fully_matches_lang.
    + unfold user_relation_classes. rewrite !elem_of_cons.
      destruct (cls_tier c); auto 6.
    + intros t Ht. apply (fully_matches_unique tn); [done|].
      by apply fully_matches_lang.
Qed.

(** X8. Well-named classes of different tiers have different table
    names. *)
Theorem table_name_determines_tier c1 c2 tn :
  well_named from_camel_case c1 → well_named from_camel_case c2 →
  table_name from_camel_case c1 = Ok (Some tn) →
  table_name from_camel_case c2 = Ok (Some tn) →
  cls_tier c1 = cls_tier c2.
Proof.
  intros (tn1 & Htn1 & Hlang1 & _)%table_name_lang
         (tn2 & Htn2 & Hlang2 & _)%table_name_lang H1 H2.
  assert (tn1 = tn) as -> by congruence. assert (tn2 = tn) as -> by congruence.
  apply (fully_matches_unique tn); by apply fully_matches_lang.
Qed.

End Classes.

Lemma trial_info_well_named :
  well_named Utils.from_camel_case (TrialInfo (Some (MyExperiment Computed))).
Proof.
  split; [reflexivity|]. intros _. exists (MyExperiment Computed).
  split; [reflexivity|]. split; [discriminate|reflexivity].
Defined.

Lemma my_experiment_well_named t :
  t ≠ Part → well_named Utils.from_camel_case (MyExperiment t).
Proof. intros Ht. split; [reflexivity|]. intros Hpart. by destruct Ht. Defined.

Lemma get_tier_of_full_table_name_witness :
  ∃ name,
    UserRelations.full_table_name Utils.from_camel_case
      (TrialInfo (Some (MyExperiment Computed))) = Ok (Some name) ∧
    _get_tier name = Ok (Some Part).
Proof.
  apply (get_tier_of_full_table_name Utils.from_camel_case
           (TrialInfo (Some (MyExperiment Computed))) "lab").
  - exact trial_info_well_named.
  - reflexivity.
Defined.

Lemma table_name_determines_tier_witness :
  cls_tier (MyExperiment Lookup) = cls_tier (Class Lookup "MyExperiment" None None).
Proof.
  apply (table_name_determines_tier Utils.from_camel_case
           (MyExperiment Lookup) (Class Lookup "MyExperiment" None None)
           "#my_experiment").
  - apply my_experiment_well_named. discriminate.
  - split; [reflexivity|]. discriminate.
  - reflexivity.
  - reflexivity.
Defined.

End TierLanguages.

(** ** Diagrams of sources and of sequences *)

Section Sources.

Import Erd.

(** X9. When every item of a non-empty sequence gives a diagram,
    [from_sequence] gives one too: over the graph of the first item, it
    shows what the diagrams of the items show, taken together. *)
Theorem from_sequence_union s rest :
  Forall (λ s', ∃ y, __init__ s' = Ok y) (s :: rest) →
  ∃ e x,
    from_sequence (s :: rest) = Ok e ∧
    __init__ s = Ok x ∧ graph e = graph x ∧
    ∀ n, n ∈ nodes_to_show e ↔
         ∃ s' y, s' ∈ s :: rest ∧ __init__ s' = Ok y ∧ n ∈ nodes_to_show y.
Proof.
  intros Hall. apply Forall_cons in Hall as [[x Hx] Hrest].
  assert (∀ x0, ∃ e, reduce_from x0 rest = Ok e) as Hreduce.
  { induction Hrest as [|s' rest' [y Hy] _ IH]; intros x0; simpl; [by eauto|].
    rewrite Hy. simpl. apply IH. }
  destruct (Hreduce x) as [e He]. exists e, x.
  assert (from_sequence (s :: rest) = Ok e) as Hseq.
  { simpl. by rewrite Hx. }
  split; [done|]. split; [done|]. split.
  - by apply reduce_from_shown in He as [? _].
  - by apply from_sequence_shown.
Qed.

Lemma from_sequence_union_witness :
  ∃ e x,
    from_sequence [FromObject (table_object "a"); FromObject (table_object "c")]
    = Ok e ∧
    __init__ (FromObject (table_object "a")) = Ok x ∧ graph e = graph x ∧
    ∀ n, n ∈ nodes_to_show e ↔
         ∃ s' y, s' ∈ [FromObject (table_object "a"); FromObject (table_object "c")] ∧
                 __init__ s' = Ok y ∧ n ∈ nodes_to_show y.
Proof.
  apply from_sequence_union.
  apply List.Forall_cons; [eexists; reflexivity|].
  apply List.Forall_cons; [eexists; reflexivity|]. apply List.Forall_nil.
Defined.

Lemma reduce_from_error x good bad rest err :
  Forall (λ s', ∃ y, __init__ s' = Ok y) good →
  __init__ bad = Raise err →
  reduce_from x (good ++ bad :: rest) = Raise err.
Proof.
  intros Hgood Hbad. revert x.
  induction Hgood as [|s' good [y Hy] _ IH]; intros x; simpl.
  - by rewrite Hbad.
  - rewrite Hy. simpl. apply IH.
Qed.

(** X10. [from_sequence] fails as the first item that gives no diagram
    does: the items after it are not looked at. *)
Theorem from_sequence_first_error good bad rest err :
  Forall (λ s', ∃ y, __init__ s' = Ok y) good →
  __init__ bad = Raise err →
  from_sequence (good ++ bad :: rest) = Raise err.
Proof.
  intros Hgood Hbad. destruct Hgood as [|s good [y Hy] Hgood]; simpl.
  - by rewrite Hbad.
  - rewrite Hy. simpl. by apply reduce_from_error.
Qed.

Lemma from_sequence_first_error_witness :
  from_sequence ([FromObject (table_object "a")] ++
                 FromObject plain_object :: [FromObject (table_object "c")])
  = Raise TypeError.
Proof.
  apply from_sequence_first_error; [|reflexivity].
  apply List.Forall_cons; [eexists; reflexivity|]. apply List.Forall_nil.
Defined.

Lemma startswith_app p s : Str.startswith p (p +:+ s) = true.
Proof.
  induction p as [|a p IH]; [done|]. rewrite string_app_cons. simpl.
  by rewrite bool_decide_eq_true_2, IH.
Qed.

Lemma startswith_quoted db db' rest rest' :
  Str.contains "`" db = false → Str.contains "`" db' = false →
  Str.startswith (db +:+ String "`" rest) (db' +:+ String "`" rest') = true →
  db = db'.
Proof.
  revert db'. induction db as [|a db IH]; intros [|b db'] Hdb Hdb';
    rewrite ?string_app_cons, ?string_app_nil_l; simpl in *.
  - done.
  - intros [Hb _]%andb_true_iff. apply bool_decide_eq_true in Hb. subst b.
    by rewrite bool_decide_eq_true_2 in Hdb'.
  - intros [Ha _]%andb_true_iff. apply bool_decide_eq_true in Ha. subst a.
    by rewrite bool_decide_eq_true_2 in Hdb.
  - intros [Hab Hrest]%andb_true_iff. apply bool_decide_eq_true in Hab. subst b.
    apply orb_false_iff in Hdb as [_ Hdb]. apply orb_false_iff in Hdb' as [_ Hdb'].
    f_equal. by apply IH.
Qed.

Lemma qualified_prefixed db table :
  qualified db table = ("`" +:+ db +:+ "`") +:+ (".`" +:+ table +:+ "`").
Proof. unfold qualified. by rewrite !string_app_assoc. Qed.

(** X11. The diagram of a source that has a connection and a database,
    but no table name of its own, shows the tables of the graph that are in
    this database, and of the others none. *)
Theorem init_of_database (o : Object) conn db :
  connection o = Value (Some conn) →
  full_table_name o = Absent →
  database o = Value db →
  Str.contains "`" db = false →
  ∃ e, __init__ (FromObject o) = Ok e ∧
       graph e = dependencies conn ∧
       nodes_to_show e ⊆ nodes (dependencies conn) ∧
       ∀ db' table,
         Str.contains "`" db' = false →
         (qualified db' table ∈ nodes_to_show e ↔
          qualified db' table ∈ nodes (dependencies conn) ∧ db' = db).
Proof.
  intros Hc Hname Hdb Hclean. unfold __init__, find_connection, find_database.
  rewrite Hc, Hname, Hdb. simpl. eexists. split; [reflexivity|]. simpl.
  split; [done|]. split.
  - intros n Hn. by apply elem_of_filter in Hn as [_ ?].
  - intros db' table Hclean'. rewrite elem_of_filter. split.
    + intros [Hstart Hin]. split; [done|]. symmetry.
      apply Is_true_true in Hstart. unfold qualified in Hstart.
      change (Str.startswith (String "`" (db +:+ String "`" EmptyString))
                (String "`" (db' +:+ String "`" (".`" +:+ table +:+ "`"))) = true)
        in Hstart.
      simpl in Hstart. by apply startswith_quoted in Hstart.
    + intros [Hin ->]. split; [|done]. apply Is_true_true.
      rewrite qualified_prefixed. apply startswith_app.
Qed.

Lemma init_of_database_witness :
  ∃ e, __init__ (FromObject (schema_object "lab")) = Ok e ∧
       graph e = chain ∧
       nodes_to_show e ⊆ nodes chain ∧
       ∀ db' table,
         Str.contains "`" db' = false →
         (qualified db' table ∈ nodes_to_show e ↔
          qualified db' table ∈ nodes chain ∧ db' = "lab").
Proof.
  apply (init_of_database (schema_object "lab") (MkConnection chain) "lab");
    reflexivity.
Defined.

End Sources.

(** ** What the render graph holds *)

Section RenderGraphs.

Import UserRelations Erd.

Lemma index_neg2_backtick name :
  Str.contains "`" name = true →
  ∃ segment, Str.index_neg2 (Str.split "`" name) = Ok segment.
Proof.
  intros Hname. unfold Str.index_neg2.
  assert (2 ≤ length (rev (Str.split "`" name))) as Hlen.
  { rewrite length_rev. destruct (split_dotted _ _ Hname) as (a & b & l & ->).
    simpl. lia. }
  destruct (rev _) as [|x [|y l]]; simpl in Hlen; [lia..|]. by exists y.
Qed.

Lemma next_tier_cons t rest name :
  next_tier (t :: rest) name
  = (segment ← Str.index_neg2 (Str.split "`" name);
     m ← Re.fullmatch (tier_regexp t) segment;
     if m : bool then Ok (Some t) else next_tier rest name).
Proof. reflexivity. Qed.

Lemma get_tier_raises name :
  Str.contains "`" name = false → _get_tier name = Raise IndexError.
Proof.
  intros Hname. unfold _get_tier, user_relation_classes.
  by rewrite next_tier_cons, split_none.
Qed.

Lemma get_tier_returns name :
  Str.contains "`" name = true → ∃ t, _get_tier name = Ok t.
Proof.
  intros Hname. destruct (index_neg2_backtick name Hname) as [segment Hseg].
  eexists. by apply next_tier_find.
Qed.

(** X12. [_get_tier] raises [IndexError] on an identifier without a
    backtick, and returns, a tier or none, on every other one. *)
Theorem get_tier_backtick name :
  (Str.contains "`" name = false → _get_tier name = Raise IndexError) ∧
  (Str.contains "`" name = true → ∃ t, _get_tier name = Ok t).
Proof. split; [apply get_tier_raises|apply get_tier_returns]. Qed.

Lemma get_tier_backtick_witness :
  _get_tier "mytable" = Raise IndexError ∧ ∃ t, _get_tier "my`table" = Ok t.
Proof.
  destruct (get_tier_backtick "mytable") as [Hraise _].
  destruct (get_tier_backtick "my`table") as [_ Hreturn].
  split; [by apply Hraise|by apply Hreturn].
Defined.

Lemma node_types_ok ns :
  (∀ n, n ∈ ns → Str.contains "`" n = true) →
  ∃ types, node_types ns = Ok types ∧ types.*1 = ns ∧
           ∀ n t, (n, t) ∈ types → _get_tier n = Ok t.
Proof.
  induction ns as [|n ns IH]; intros Hns; simpl.
  - exists []. split; [done|]. split; [done|]. by intros n t ?%elem_of_nil.
  - destruct (get_tier_returns n) as [t Ht]; [apply Hns; by left|].
    destruct IH as (types & -> & Hkeys & Htypes).
    { intros n' Hn'. apply Hns. by right. }
    rewrite Ht. simpl. exists ((n, t) :: types). split; [done|].
    split; [by rewrite fmap_cons, Hkeys|].
    intros n' t' [[= -> ->]|Hin]%elem_of_cons; [done|by apply Htypes].
Qed.

Lemma node_types_raise ns err :
  node_types ns = Raise err →
  err = IndexError ∧ ∃ n, n ∈ ns ∧ Str.contains "`" n = false.
Proof.
  induction ns as [|n ns IH]; simpl; [done|].
  destruct (Str.contains "`" n) eqn:Hn.
  - destruct (get_tier_returns n Hn) as [t ->]. simpl.
    destruct (node_types ns) as [types|err'] eqn:Hns; simpl; [done|].
    intros [= <-]. destruct (IH eq_refl) as (-> & n' & Hn' & Hclean).
    split; [done|]. exists n'. split; [by right|done].
  - rewrite (get_tier_raises n Hn). simpl. intros [= <-].
    split; [done|]. exists n. split; [by left|done].
Qed.

Lemma node_types_returned ns types :
  node_types ns = Ok types → ∀ n, n ∈ ns → Str.contains "`" n = true.
Proof.
  revert types. induction ns as [|n ns IH]; intros types; simpl.
  - by intros _ n ?%elem_of_nil.
  - destruct (Str.contains "`" n) eqn:Hn.
    + destruct (_get_tier n); simpl; [|done].
      destruct (node_types ns) as [ts|]; simpl; [|done].
      intros _ n' [->|Hn']%elem_of_cons; [done|]. by apply (IH ts).
    + by rewrite (get_tier_raises n Hn).
Qed.

Lemma shown_length (X : gset string) a b :
  a ∈ X → b ∈ X → a ≠ b → 2 ≤ length (elements X).
Proof.
  intros Ha%elem_of_elements Hb%elem_of_elements Hne.
  pose proof (NoDup_elements X) as Hnodup.
  destruct (elements X) as [|x [|y l]]; simpl; [|exfalso|lia].
  - by apply elem_of_nil in Ha.
  - apply list_elem_of_singleton in Ha, Hb. congruence.
Qed.

(** No cycle when no new name is the identifier of another node. *)
Lemma cyclic_fresh (mapping : string → string) ns :
  (∀ n, n ∈ ns → mapping n = n ∨ mapping n ∉ ns) → cyclic mapping ns = false.
Proof.
  intros Hfresh. unfold cyclic. apply not_true_is_false.
  intros (n & Hn%list_elem_of_In & Hback)%existsb_exists.
  destruct (length ns); simpl in Hback; [done|].
  destruct (decide (mapping n = n)) as [|Hfixed]; [done|].
  destruct (Hfresh n Hn) as [?|Hnew]; [done|].
  by destruct (decide (mapping n ∈ ns)).
Qed.

(** A cycle when two nodes take the identifier of each other. *)
Lemma cyclic_exchanged (mapping : string → string) ns a b :
  a ∈ ns → b ∈ ns → 2 ≤ length ns → a ≠ b →
  mapping a = b → mapping b = a → cyclic mapping ns = true.
Proof.
  intros Ha Hb Hlen Hne Hab Hba. unfold cyclic. apply existsb_exists.
  exists a. split; [by apply list_elem_of_In|].
  destruct (length ns) as [|[|fuel]]; [lia..|]. simpl.
  rewrite Hab, Hba.
  destruct (decide (b = a)) as [|_]; [congruence|].
  destruct (decide (b ∈ ns)) as [_|]; [|done].
  destruct (decide (a = b)) as [|_]; [done|].
  by destruct (decide (a = a)).
Qed.

Section WithContext.

Context {context : Type} (lookup_class_name : string → context → option string).

(** X13. [_make_graph] raises [IndexError] when a shown node of the
    graph has no backtick.  When all have one, it returns the render
    graph if no display name is the identifier of another shown node,
    and raises [NetworkXUnfeasible] if two shown nodes have the
    identifier of each other for display name. *)
Theorem make_graph_raises (e : ERD) (ctx : context) :
  let shown := nodes (subgraph (graph e) (nodes_to_show e)) in
  let display := display_name lookup_class_name ctx in
  ((∃ n, n ∈ shown ∧ Str.contains "`" n = false) →
   _make_graph lookup_class_name e ctx = Raise IndexError) ∧
  ((∀ n, n ∈ shown → Str.contains "`" n = true) →
   (∀ n, n ∈ shown → display n = n ∨ display n ∉ shown) →
   ∃ g, _make_graph lookup_class_name e ctx = Ok g) ∧
  ((∀ n, n ∈ shown → Str.contains "`" n = true) →
   (∃ a b, a ∈ shown ∧ b ∈ shown ∧ a ≠ b ∧ display a = b ∧ display b = a) →
   _make_graph lookup_class_name e ctx = Raise NetworkXUnfeasible).
Proof.
  intros shown display. unfold _make_graph. fold shown. split; [|split].
  - intros (n & Hn & Hclean).
    destruct (node_types (elements shown)) as [types|err] eqn:Htypes; simpl.
    + assert (Str.contains "`" n = true) as Htick; [|congruence].
      apply (node_types_returned _ _ Htypes). by apply elem_of_elements.
    + by apply node_types_raise in Htypes as [-> _].
  - intros Hticks Hfresh.
    destruct (node_types_ok (elements shown)) as (types & -> & Hkeys & _).
    { intros n Hn%elem_of_elements. by apply Hticks. }
    simpl. unfold relabel_nodes. rewrite Hkeys, cyclic_fresh; [by eexists|].
    intros n Hn%elem_of_elements. rewrite elem_of_elements. by apply Hfresh.
  - intros Hticks (a & b & Ha & Hb & Hne & Hab & Hba).
    destruct (node_types_ok (elements shown)) as (types & -> & Hkeys & _).
    { intros n Hn%elem_of_elements. by apply Hticks. }
    simpl. unfold relabel_nodes. rewrite Hkeys.
    rewrite (cyclic_exchanged _ _ a b); [done|..|done|done|done].
    + by apply elem_of_elements.
    + by apply elem_of_elements.
    + by apply (shown_length shown a b).
Qed.

(** X14. When the display names of the shown nodes are pairwise different
    and none of them is the identifier of another shown node, the render
    graph has one node for each shown node of the graph, under its display
    name and with its tier, and the edges between shown nodes under the
    display names of their ends. *)
Theorem make_graph_labels (e : ERD) (ctx : context) :
  let shown := nodes (subgraph (graph e) (nodes_to_show e)) in
  let display := display_name lookup_class_name ctx in
  (∀ n, n ∈ shown → Str.contains "`" n = true) →
  (∀ n, n ∈ shown → display n = n ∨ display n ∉ shown) →
  (∀ n1 n2, n1 ∈ shown → n2 ∈ shown → display n1 = display n2 → n1 = n2) →
  ∃ g, _make_graph lookup_class_name e ctx = Ok g ∧
       (∀ n, n ∈ shown →
             ∃ t, _get_tier n = Ok t ∧ node_type g !! display n = Some t) ∧
       (∀ k, is_Some (node_type g !! k) → ∃ n, n ∈ shown ∧ k = display n) ∧
       (∀ u v, (u, v) ∈ render_edges g ↔
               ∃ u0 v0, (u0, v0) ∈ edges (graph e) ∧
                        u0 ∈ nodes_to_show e ∧ v0 ∈ nodes_to_show e ∧
                        u = display u0 ∧ v = display v0).
Proof.
  intros shown display Hticks Hfresh Hinj. unfold _make_graph. fold shown.
  destruct (node_types_ok (elements shown)) as (types & -> & Hkeys & Htypes).
  { intros n Hn%elem_of_elements. by apply Hticks. }
  simpl. unfold relabel_nodes. rewrite Hkeys, cyclic_fresh.
  2:{ intros n Hn%elem_of_elements. rewrite elem_of_elements. by apply Hfresh. }
  eexists. split; [reflexivity|]. simpl. fold display.
  set (ordered := filter (λ nt, display nt.1 ≠ nt.1) types
                  ++ filter (λ nt, ¬ display nt.1 ≠ nt.1) types).
  assert (ordered ≡ₚ types) as Hperm by apply filter_app_complement.
  assert (NoDup (prod_map display id <$> ordered).*1) as Hnodup.
  { rewrite <- list_fmap_compose.
    replace (fst ∘ prod_map display id) with (display ∘ @fst string (option tier))
      by done.
    rewrite list_fmap_compose, Hperm, Hkeys. apply NoDup_fmap_2_strong.
    - intros n1 n2 ?%elem_of_elements ?%elem_of_elements. by apply Hinj.
    - apply NoDup_elements. }
  split; [|split].
  - intros n Hn.
    assert (n ∈ types.*1) as Hin by (rewrite Hkeys; by apply elem_of_elements).
    apply list_elem_of_fmap in Hin as ([n' t] & -> & Hin). simpl.
    exists t. split; [by apply Htypes|].
    apply elem_of_list_to_map_1; [done|].
    apply list_elem_of_fmap. exists (n', t). split; [done|]. by rewrite Hperm.
  - intros k [t Hk]. apply elem_of_list_to_map_2 in Hk.
    apply list_elem_of_fmap in Hk as ([n t'] & [= -> ->] & Hin).
    rewrite Hperm in Hin.
    exists n. split; [|done]. apply elem_of_elements. rewrite <- Hkeys.
    apply list_elem_of_fmap. by exists (n, t').
  - intros u v. rewrite elem_of_map. split.
    + intros ([u0 v0] & [= -> ->] & Hin).
      apply elem_of_filter in Hin as [[? ?] ?]. by exists u0, v0.
    + intros (u0 & v0 & He & Hu & Hv & -> & ->). exists (u0, v0).
      split; [done|]. by apply elem_of_filter.
Qed.

End WithContext.

(** The three hypotheses on the pipeline with its classes, decided on
    the three shown nodes. *)
Lemma make_graph_labels_witness :
  ∃ g, _make_graph lookup_pipeline pipeline_all () = Ok g ∧
       node_type g !! "Species" = Some (Some Lookup) ∧
       node_type g !! "Subject" = Some (Some Manual) ∧
       node_type g !! qualified "lab" "__analysis" = Some (Some Computed) ∧
       ("Species", "Subject") ∈ render_edges g ∧
       ("Subject", qualified "lab" "__analysis") ∈ render_edges g.
Proof.
  destruct (make_graph_labels lookup_pipeline pipeline_all ())
    as (g & Hg & Hnodes & _ & Hedges).
  - apply (bool_decide_unpack _). by vm_compute.
  - apply (bool_decide_unpack _). by vm_compute.
  - intros n1 n2 Hn1 Hn2. revert n2 Hn2. revert n1 Hn1.
    apply (bool_decide_unpack _). by vm_compute.
  - exists g. split; [done|].
    destruct (Hnodes (qualified "lab" "#species")) as (t1 & Ht1 & Hl1);
      [by vm_compute|].
    destruct (Hnodes (qualified "lab" "subject")) as (t2 & Ht2 & Hl2);
      [by vm_compute|].
    destruct (Hnodes (qualified "lab" "__analysis")) as (t3 & Ht3 & Hl3);
      [by vm_compute|].
    vm_compute in Ht1, Ht2, Ht3.
    injection Ht1 as <-. injection Ht2 as <-. injection Ht3 as <-.
    split; [exact Hl1|]. split; [exact Hl2|]. split; [exact Hl3|].
    split; apply Hedges.
    + exists (qualified "lab" "#species"), (qualified "lab" "subject").
      repeat split; by vm_compute.
    + exists (qualified "lab" "subject"), (qualified "lab" "__analysis").
      repeat split; by vm_compute.
Defined.

Lemma make_graph_raises_witness :
  _make_graph lookup_pipeline unquoted_node () = Raise IndexError ∧
  (∃ g, _make_graph lookup_pipeline pipeline_all () = Ok g) ∧
  _make_graph lookup_exchanged pipeline_all () = Raise NetworkXUnfeasible.
Proof.
  split; [|split].
  - apply (make_graph_raises lookup_pipeline unquoted_node ()).
    exists "subject". split; by vm_compute.
  - apply (make_graph_raises lookup_pipeline pipeline_all ()).
    + apply (bool_decide_unpack _). by vm_compute.
    + apply (bool_decide_unpack _). by vm_compute.
  - apply (make_graph_raises lookup_exchanged pipeline_all ()).
    + apply (bool_decide_unpack _). by vm_compute.
    + exists (qualified "lab" "#species"), (qualified "lab" "subject").
      repeat split; by vm_compute.
Defined.

End RenderGraphs.

(** ** When the layout fails *)

Section LayoutMore.

Import Erd.

Lemma foldl_smaller_in l x : foldl smaller x l = x ∨ foldl smaller x l ∈ l.
Proof.
  revert x. induction l as [|a l IH]; intros x; simpl; [by left|].
  destruct (IH (smaller x a)) as [->|Hin]; [|by right; right].
  unfold smaller. destruct (Qle_bool x a); [by left|by right; left].
Qed.

Lemma foldl_larger_in l x : foldl larger x l = x ∨ foldl larger x l ∈ l.
Proof.
  revert x. induction l as [|a l IH]; intros x; simpl; [by left|].
  destruct (IH (larger x a)) as [->|Hin]; [|by right; right].
  unfold larger. destruct (Qle_bool a x); [by left|by right; left].
Qed.

Lemma min_of_in l m : min_of l = Ok m → m ∈ l.
Proof.
  destruct l as [|x l]; simpl; [done|]. intros [= <-].
  destruct (foldl_smaller_in l x) as [->|?]; [by left|by right].
Qed.

Lemma max_of_in l m : max_of l = Ok m → m ∈ l.
Proof.
  destruct l as [|x l]; simpl; [done|]. intros [= <-].
  destruct (foldl_larger_in l x) as [->|?]; [by left|by right].
Qed.

Lemma min_max_of_nonempty l :
  l ≠ [] → ∃ lo hi, min_of l = Ok lo ∧ max_of l = Ok hi.
Proof. destruct l; [done|]. intros _. by eexists _, _. Qed.

Lemma div_by_equal a lo hi c :
  (lo == c)%Q → (hi == c)%Q → div a (hi - lo) = Raise ZeroDivisionError.
Proof.
  intros Hlo Hhi. unfold div.
  assert (Qeq_bool (hi - lo) 0 = true) as ->; [|done].
  apply Qeq_bool_iff. lra.
Qed.

(** X16. [_layout] cannot lay out nodes in one column or in one row, a
    single node among them: when all the computed horizontal coordinates
    are equal, or all the vertical ones, it raises [ZeroDivisionError];
    without any position it raises [ValueError]. *)
Theorem layout_degenerate (graphviz_layout : RenderGraph → list (string * (Q * Q)))
    (g : RenderGraph) :
  (graphviz_layout g = [] → _layout graphviz_layout g = Raise ValueError) ∧
  (∀ c, graphviz_layout g ≠ [] →
        ((∀ v, v ∈ (graphviz_layout g).*2.*1 → (v == c)%Q) ∨
         (∀ v, v ∈ (graphviz_layout g).*2.*2 → (v == c)%Q)) →
        _layout graphviz_layout g = Raise ZeroDivisionError).
Proof.
  unfold _layout, bounds_of. split.
  - by intros ->.
  - intros c. destruct (graphviz_layout g) as [|[k [vx vy]] pos] eqn:Hpos; [done|].
    intros _ Hsame. rewrite <- Hpos in *.
    destruct (min_max_of_nonempty ((graphviz_layout g).*2.*1))
      as (xmin & xmax & Hxmin & Hxmax); [by rewrite Hpos|].
    destruct (min_max_of_nonempty ((graphviz_layout g).*2.*2))
      as (ymin & ymax & Hymin & Hymax); [by rewrite Hpos|].
    rewrite Hxmin, Hxmax, Hymin, Hymax. simpl. rewrite Hpos. simpl.
    destruct Hsame as [Hx|Hy].
    + rewrite (div_by_equal _ xmin xmax c); [done|..]; apply Hx;
        [by apply min_of_in|by apply max_of_in].
    + destruct (div (vx - xmin) (xmax - xmin)) as [x|err] eqn:Hdiv; simpl.
      * rewrite (div_by_equal _ ymin ymax c); [done|..]; apply Hy;
          [by apply min_of_in|by apply max_of_in].
      * unfold div in Hdiv. destruct (Qeq_bool _ _); [|done]. by injection Hdiv as <-.
Qed.

Lemma layout_degenerate_witness :
  _layout (λ _, [("A", (3, 4)%Q)]) (MkRenderGraph ∅ ∅) = Raise ZeroDivisionError.
Proof.
  destruct (layout_degenerate (λ _, [("A", (3, 4)%Q)]) (MkRenderGraph ∅ ∅))
    as [_ Hsame].
  apply (Hsame 3%Q); [discriminate|]. left. intros v Hv.
  apply list_elem_of_singleton in Hv. by subst.
Defined.

End LayoutMore.

(** ** More on the declaration order *)

Section DeclarationOrderMore.

Import UserRelations.

Context {V : Type}.

Lemma setitem_nodup k (v : V) d : NoDup d.*1 → NoDup (setitem k v d).*1.
Proof.
  intros Hd. destruct (decide (k ∈ d.*1)) as [Hk|Hk].
  - by rewrite setitem_present.
  - rewrite setitem_fresh by done. apply NoDup_app. split; [done|].
    split; [|apply NoDup_singleton].
    intros k' Hk' ->%list_elem_of_singleton. done.
Qed.

Lemma setitem_elem_of k (v : V) d k' :
  k' ∈ (setitem k v d).*1 ↔ k' ∈ d.*1 ∨ k' = k.
Proof.
  destruct (decide (k ∈ d.*1)) as [Hk|Hk].
  - rewrite setitem_present by done. split; [by left|]. by intros [?| ->].
  - rewrite setitem_fresh by done. by rewrite elem_of_app, list_elem_of_singleton.
Qed.

Lemma setitem_lookup k (v : V) d :
  (list_to_map (setitem k v d) : gmap string V) !! k = Some v.
Proof.
  induction d as [|[k' v'] d IH]; simpl.
  - apply lookup_insert_eq.
  - case_decide as Hk; simpl.
    + apply lookup_insert_eq.
    + by rewrite lookup_insert_ne.
Qed.

Lemma members_nodup (ms : list (string * V)) ns :
  NoDup ns.*1 →
  NoDup (foldl (λ ns kv, setitem kv.1 kv.2 ns) ns ms).*1 ∧
  ∀ k, k ∈ (foldl (λ ns kv, setitem kv.1 kv.2 ns) ns ms).*1 ↔
       k ∈ ns.*1 ∨ k ∈ ms.*1.
Proof.
  revert ns. induction ms as [|[k v] ms IH]; intros ns Hns; csimpl.
  - split; [done|]. intros k. split; [by left|]. by intros [?|?%elem_of_nil].
  - destruct (IH (setitem k v ns)) as [Hnodup Hin]; [by apply setitem_nodup|].
    split; [done|]. intros k'. rewrite Hin, setitem_elem_of, elem_of_cons.
    tauto.
Qed.

Lemma store_nodup k (v : option V) ns : NoDup ns.*1 → NoDup (store k v ns).*1.
Proof. destruct v; simpl; [apply setitem_nodup|done]. Qed.

Lemma store_elem_of k (v : option V) ns k' :
  k' ∈ (store k v ns).*1 ↔ k' ∈ ns.*1 ∨ k' ∈ stored k v.
Proof.
  destruct v; simpl.
  - by rewrite setitem_elem_of, list_elem_of_singleton.
  - rewrite elem_of_nil. tauto.
Qed.

Lemma preamble_nodup (b : class_body V) : NoDup (preamble b).*1.
Proof.
  rewrite preamble_keys. unfold implicit_names.
  destruct (annotations b), (docstring b); apply (bool_decide_unpack _);
    by vm_compute.
Qed.

Lemma captured_names (b : class_body V) :
  NoDup (exec_body b __prepare__).*1 ∧
  ∀ k, k ∈ (exec_body b __prepare__).*1 ↔
       k ∈ implicit_names b ∨ k ∈ (members b).*1 ∨ k ∈ closing_names b.
Proof.
  rewrite exec_body_preamble.
  destruct (members_nodup (members b) (preamble b) (preamble_nodup b))
    as [Hnodup Hin].
  split; [by apply store_nodup|].
  intros k. rewrite store_elem_of, Hin, preamble_keys. unfold closing_names. tauto.
Qed.


Lemma store_lookup_ne k (v : option V) ns k' :
  k' ≠ k →
  (list_to_map (store k v ns) : gmap string V) !! k'
  = (list_to_map ns : gmap string V) !! k'.
Proof.
  intros Hne. destruct v as [v|]; simpl; [|done].
  induction ns as [|[k0 v0] ns IH]; simpl.
  - by rewrite lookup_insert_ne.
  - case_decide as Hk; simpl.
    + subst k0. by rewrite !lookup_insert_ne.
    + destruct (decide (k0 = k')) as [->|Hk'].
      * by rewrite !lookup_insert_eq.
      * by rewrite !lookup_insert_ne.
Qed.


End DeclarationOrderMore.


(** ** Parts, unions and single tables *)

Section PartsMore.

Import Str Erd.

(** What [add_parts] shows, on identifiers with their two segments. *)
Lemma add_parts_shown (e : ERD) :
  (∀ n, n ∈ nodes (graph e) ∪ nodes_to_show e → contains "." n = true) →
  ∃ e1, add_parts e = Ok e1 ∧ graph e1 = graph e ∧
        ∀ n, n ∈ nodes_to_show e1 ↔
             n ∈ nodes_to_show e ∨
             (n ∈ nodes (graph e) ∧ ∃ m, m ∈ nodes_to_show e ∧ part_of n m).
Proof.
  intros Hdots. destruct e as [G shown]; simpl in *.
  destruct (update_with_parts_dotted shown (elements (nodes G)) shown)
    as (shown1 & Hrun & Hshown).
  - intros n Hn%elem_of_elements. apply Hdots. by apply elem_of_union_l.
  - intros m Hm. apply Hdots. by apply elem_of_union_r.
  - done.
  - intros x Hx. by left.
  - exists (MkERD G shown1). unfold add_parts. simpl. rewrite Hrun.
    split; [done|]. split; [done|]. intros n.
    by rewrite Hshown, elem_of_elements.
Qed.

(** X19. The parts of a union are the parts of its sides: over one graph,
    [(e1 + e2).add_parts()] shows what [e1.add_parts()] and
    [e2.add_parts()] show. *)
Theorem add_parts_of_union (e1 e2 : ERD) :
  graph e2 = graph e1 →
  (∀ n, n ∈ nodes (graph e1) ∪ nodes_to_show e1 ∪ nodes_to_show e2 →
        contains "." n = true) →
  ∃ e12 p p1 p2,
    __add__ e1 (OpERD e2) = Ok e12 ∧ add_parts e12 = Ok p ∧
    add_parts e1 = Ok p1 ∧ add_parts e2 = Ok p2 ∧
    nodes_to_show p = nodes_to_show p1 ∪ nodes_to_show p2.
Proof.
  intros Hg Hdots.
  destruct (add_parts_shown e1) as (p1 & Hp1 & _ & Hs1).
  { intros n Hn. apply Hdots. by apply elem_of_union_l. }
  destruct (add_parts_shown e2) as (p2 & Hp2 & _ & Hs2).
  { intros n Hn. apply Hdots. rewrite Hg in Hn.
    apply elem_of_union in Hn as [?|?];
      [by apply elem_of_union_l, elem_of_union_l|by apply elem_of_union_r]. }
  destruct (add_parts_shown (MkERD (graph e1) (nodes_to_show e1 ∪ nodes_to_show e2)))
    as (p & Hp & _ & Hs).
  { simpl. intros n Hn. apply Hdots. by rewrite <- (assoc_L (∪)). }
  exists (MkERD (graph e1) (nodes_to_show e1 ∪ nodes_to_show e2)), p, p1, p2.
  repeat (split; [done|]). apply set_eq. intros n.
  rewrite elem_of_union, Hs, Hs1, Hs2, Hg. simpl. split.
  - intros [[?|?]%elem_of_union|[Hn (m & [?|?]%elem_of_union & Hpart)]];
      [by left; left|by right; left| |].
    + left. right. split; [done|]. by exists m.
    + right. right. split; [done|]. by exists m.
  - intros [[?|[Hn (m & ? & Hpart)]]|[?|[Hn (m & ? & Hpart)]]].
    + left. by apply elem_of_union_l.
    + right. split; [done|]. exists m. split; [by apply elem_of_union_l|done].
    + left. by apply elem_of_union_r.
    + right. split; [done|]. exists m. split; [by apply elem_of_union_r|done].
Qed.

Lemma add_parts_of_union_witness :
  ∃ e12 p p1 p2,
    __add__ session_only (OpERD session_only) = Ok e12 ∧ add_parts e12 = Ok p ∧
    add_parts session_only = Ok p1 ∧ add_parts session_only = Ok p2 ∧
    nodes_to_show p = nodes_to_show p1 ∪ nodes_to_show p2.
Proof.
  apply (add_parts_of_union session_only session_only); [reflexivity|].
  apply all_dotted. vm_compute. reflexivity.
Defined.

Lemma part_of_irrefl n : ¬ part_of n n.
Proof.
  intros [_ [rest Hrest]].
  apply (f_equal String.length) in Hrest.
  rewrite !string_length_app in Hrest. simpl in Hrest. lia.
Qed.

(** X20. On identifiers with their two segments, [is_part] is a strict
    order: no table is a part of itself, and a part of a part of a table
    is a part of this table. *)
Theorem is_part_strict_order a b c :
  contains "." a = true → contains "." b = true → contains "." c = true →
  is_part a a = Ok false ∧
  (is_part a b = Ok true → is_part b c = Ok true → is_part a c = Ok true).
Proof.
  intros Ha Hb Hc. split.
  - destruct (is_part_dotted a a Ha Ha) as ([] & -> & Hiff); [|done].
    destruct (part_of_irrefl a). by apply Hiff.
  - destruct (is_part_dotted a b Ha Hb) as (ab & -> & Hab).
    destruct (is_part_dotted b c Hb Hc) as (bc & -> & Hbc).
    destruct (is_part_dotted a c Ha Hc) as (ac & -> & Hac).
    intros [= ->] [= ->]. f_equal. apply Hac.
    apply part_of_trans with b; [by apply Hab|by apply Hbc].
Qed.

Lemma is_part_strict_order_witness :
  is_part (qualified "lab" "session__trial__spike") (qualified "lab" "session")
  = Ok true.
Proof.
  pose proof (is_part_strict_order
                (qualified "lab" "session__trial__spike")
                (qualified "lab" "session__trial")
                (qualified "lab" "session") eq_refl eq_refl eq_refl)
    as [_ Htrans].
  apply Htrans; reflexivity.
Defined.

(** X21. Difference and intersection split a diagram: [(e1 - e2) + (e1 * e2)]
    shows what [e1] shows, over the graph of [e1]; and [(e1 - e2) * e2]
    shows nothing. *)
Theorem difference_and_intersection (e1 e2 : ERD) :
  ∃ d u,
    __sub__ e1 (OpERD e2) = Ok d ∧
    __add__ d (OpERD (__mul__ e1 e2)) = Ok u ∧
    graph u = graph e1 ∧ nodes_to_show u = nodes_to_show e1 ∧
    nodes_to_show (__mul__ d e2) = ∅.
Proof.
  eexists _, _. split; [reflexivity|]. split; [reflexivity|]. simpl.
  split; [done|]. split.
  - apply set_eq. intros n.
    rewrite elem_of_union, elem_of_difference, elem_of_intersection.
    destruct (decide (n ∈ nodes_to_show e2)); tauto.
  - apply set_eq. intros n.
    rewrite elem_of_intersection, elem_of_difference, elem_of_empty. tauto.
Qed.

(** X22. A table that has just been added can be taken out again; taking
    out a table that is not shown raises [KeyError]. *)
Theorem add_then_remove_table (e : ERD) (name : string) :
  (∃ e1 e2,
     __add__ e (OpRelation (Ok name)) = Ok e1 ∧
     __sub__ e1 (OpRelation (Ok name)) = Ok e2 ∧
     graph e2 = graph e ∧
     nodes_to_show e2 = nodes_to_show e ∖ {[ name ]}) ∧
  (name ∉ nodes_to_show e →
   __sub__ e (OpRelation (Ok name)) = Raise KeyError).
Proof.
  split.
  - eexists _, _. split; [reflexivity|]. simpl.
    rewrite decide_True by (apply elem_of_union_r; by apply elem_of_singleton).
    split; [reflexivity|]. simpl. split; [done|].
    apply set_eq. intros n.
    rewrite !elem_of_difference, elem_of_union. tauto.
  - intros Hname. simpl. by rewrite decide_False.
Qed.

Lemma add_then_remove_table_witness :
  __sub__ (chain_at "a") (OpRelation (Ok (qualified "lab" "b"))) = Raise KeyError.
Proof.
  destruct (add_then_remove_table (chain_at "a") (qualified "lab" "b"))
    as [_ Hraise].
  apply Hraise. apply (bool_decide_unpack _). by vm_compute.
Defined.

End PartsMore.

(** ** A Part class inside a Part class *)

Section NestedParts.

Import UserRelations.

Variable from_camel_case : string → string.

(** X23. A Part class whose master has no table name of its own (a Part
    class that is not bound to a master) has no table name either:
    [table_name] raises [TypeError], and so does [full_table_name] once the
    class has a database; without a database [full_table_name] is still
    absent. *)
Theorem part_of_unbound_part c master :
  cls_tier c = Part → _master c = Some master →
  table_name from_camel_case master = Ok None →
  table_name from_camel_case c = Raise TypeError ∧
  (∀ db, database c = Some db →
         full_table_name from_camel_case c = Raise TypeError) ∧
  (database c = None → full_table_name from_camel_case c = Ok None).
Proof.
  intros Ht Hm Hmaster. destruct c as [t name db m]. simpl in *. subst t m.
  assert (table_name from_camel_case (Class Part name db (Some master))
          = Raise TypeError) as Htn.
  { simpl. by rewrite Hmaster. }
  split; [done|]. unfold full_table_name. simpl cls_tier. simpl database. split.
  - intros db' ->. by rewrite Htn.
  - by intros ->.
Qed.

End NestedParts.

Lemma part_of_unbound_part_witness :
  UserRelations.table_name Utils.from_camel_case
    (UserRelations.Class UserRelations.Part "Spike" (Some "lab") (Some (TrialInfo None)))
  = Raise TypeError.
Proof.
  apply (part_of_unbound_part Utils.from_camel_case
           (UserRelations.Class UserRelations.Part "Spike" (Some "lab")
              (Some (TrialInfo None)))
           (TrialInfo None)); reflexivity.
Defined.

(** ** Diagrams of graph nodes stay diagrams of graph nodes *)

Section WithinGraph.

Import Erd.

Lemma update_with_parts_bounded pending shown shown' :
  update_with_parts pending shown = Ok shown' →
  ∀ n, n ∈ shown' → n ∈ shown ∨ n ∈ pending.
Proof.
  revert shown. induction pending as [|p pending IH]; intros shown; simpl.
  - intros [= <-] n Hn. by left.
  - destruct (any_is_part p (elements shown)) as [b|]; simpl; [|done].
    intros Hrun n Hn. destruct (IH _ Hrun n Hn) as [Hin|Hin]; [|by right; right].
    destruct b; [|by left].
    apply elem_of_union in Hin as [->%elem_of_singleton|?];
      [right; by left|by left].
Qed.

Lemma within_in_graph G start k v :
  wf G → start ⊆ nodes G → within G start k v → v ∈ nodes G.
Proof.
  intros Hwf Hstart. induction 1 as [k v Hv|k u v Hu IH He]; [by apply Hstart|].
  by destruct (wf_edge G u v).
Qed.

(** X24. A diagram that shows only nodes of its graph keeps doing so under
    expansion in both directions, intersection, difference and
    [add_parts]; none of them changes the graph. *)
Theorem shown_stays_in_graph (e : ERD) :
  wf (graph e) → nodes_to_show e ⊆ nodes (graph e) →
  (∀ n e', __add__ e (OpInt n) = Ok e' ∨ __sub__ e (OpInt n) = Ok e' →
           graph e' = graph e ∧ nodes_to_show e' ⊆ nodes (graph e)) ∧
  (∀ e2 e', __sub__ e (OpERD e2) = Ok e' ∨ __mul__ e e2 = e' →
            graph e' = graph e ∧ nodes_to_show e' ⊆ nodes (graph e)) ∧
  (∀ e', add_parts e = Ok e' →
         graph e' = graph e ∧ nodes_to_show e' ⊆ nodes (graph e)).
Proof.
  intros Hwf Hshown. split; [|split].
  - intros n e' [[= <-]|[= <-]]; simpl; (split; [done|]); intros v Hv.
    + apply expand_within in Hv; [|done]. by apply within_in_graph in Hv.
    + apply expand_within in Hv; [|by apply wf_reverse].
      apply within_in_graph in Hv; [done|by apply wf_reverse|done].
  - intros e2 e' [[= <-]|<-]; simpl; (split; [done|]); intros v Hv.
    + apply elem_of_difference in Hv as [? _]. by apply Hshown.
    + apply elem_of_intersection in Hv as [? _]. by apply Hshown.
  - intros e'. unfold add_parts.
    destruct (update_with_parts _ _) as [shown'|] eqn:Hrun; simpl; [|done].
    intros [= <-]. simpl. split; [done|]. intros v Hv.
    apply (update_with_parts_bounded _ _ _ Hrun) in Hv as [?|?%elem_of_elements];
      [by apply Hshown|done].
Qed.

Lemma shown_stays_in_graph_witness :
  graph (chain_at "a") = chain ∧ nodes_to_show (chain_at "a") ⊆ nodes chain.
Proof.
  destruct (shown_stays_in_graph (chain_at "a")) as (_ & _ & Hparts).
  - exact chain_wf.
  - apply (bool_decide_unpack _). by vm_compute.
  - apply (Hparts (chain_at "a")). by vm_compute.
Defined.

End WithinGraph.
